(** * Script2Sound: the chunked synthesis pipeline

    A shallow embedding of [backend/app/tts_service.py] (class [TTSService])
    and of the request boundary of [backend/app/main.py], followed by the
    properties of the text normalizer, the chunker, the dispatcher and the
    assembler.

    Python values are modelled as follows.
    - [str] is a list of Unicode code points ([N]); [len] is [length].
    - [bytes] is a list of [Byte.byte]; [b''.join] is [concat].
    - [float] is [pyfloat]: a finite value is the rational it denotes
      (every bound the code compares with is exactly representable), plus
      the two infinities and NaN.
    - A raised exception is the [inl] outcome of the pipeline monad; the
      remote engine is an interface ([TextToSpeechClient]) with a state of
      its own, and every call made to it is recorded in a call log.
    - Calls to [logger] change nothing that is computed and are left out. *)

From Stdlib Require Import String Ascii Arith Lia Bool NArith QArith List.
Import ListNotations.
Local Close Scope Q_scope.
Local Open Scope nat_scope.
Local Open Scope list_scope.

Set Warnings "-abstract-large-number".

(* ================================================================== *)
(** ** Python strings *)
(* ================================================================== *)

Module PyStr.

(** A character is a Unicode code point. *)
Definition char := N.
Definition str := list char.

(** String literals of the source, written as Rocq strings. *)
Definition py (s : string) : str :=
  map N_of_ascii (list_ascii_of_string s).

Definition chr (a : ascii) : char := N_of_ascii a.

(** [str.isspace] on one character: the code points for which CPython's
    [_PyUnicode_IsWhitespace] answers true. [str.split()] and
    [str.strip()] use the same predicate. *)
Definition isspace (c : char) : bool :=
  ((9 <=? c) && (c <=? 13) || (28 <=? c) && (c <=? 32)
   || (c =? 133) || (c =? 160) || (c =? 5760)
   || (8192 <=? c) && (c <=? 8202)
   || (c =? 8232) || (c =? 8233) || (c =? 8239) || (c =? 8287)
   || (c =? 12288))%N.

(** [not s] for a string. *)
Definition is_empty (s : str) : bool :=
  match s with [] => true | _ :: _ => false end.

Fixpoint lstrip (s : str) : str :=
  match s with
  | [] => []
  | c :: rest => if isspace c then lstrip rest else s
  end.

(** [s.rstrip()]: a character stays when it is not whitespace or when
    something after it stays. *)
Fixpoint rstrip (s : str) : str :=
  match s with
  | [] => []
  | c :: rest =>
      match rstrip rest with
      | [] => if isspace c then [] else [c]
      | kept => c :: kept
      end
  end.

(** [s.strip()] *)
Definition strip (s : str) : str := rstrip (lstrip s).

(** [s.split()]: the maximal runs of non-whitespace characters, in
    order. A character that is not whitespace ends a word when the text
    ends or whitespace follows, and otherwise joins the word that the
    rest of the text begins with. *)
Fixpoint split_ws (s : str) : list str :=
  match s with
  | [] => []
  | c :: rest =>
      if isspace c then split_ws rest
      else
        match rest with
        | [] => [[c]]
        | d :: _ =>
            if isspace d then [c] :: split_ws rest
            else
              match split_ws rest with
              | word :: words => (c :: word) :: words
              | [] => [[c]]
              end
        end
  end.

(** [sep.join(parts)] *)
Fixpoint join (sep : str) (parts : list str) : str :=
  match parts with
  | [] => []
  | [p] => p
  | p :: ps => p ++ sep ++ join sep ps
  end.

(** [s.replace(old, new)] for one-character [old] and [new]. *)
Definition replace (old new : char) (s : str) : str :=
  map (fun c => if (c =? old)%N then new else c) s.

(** [s.split(sep)] for a one-character separator: empty pieces are kept
    and the result is never the empty list. *)
Fixpoint split_on (sep : char) (s : str) : list str :=
  match s with
  | [] => [[]]
  | c :: rest =>
      if (c =? sep)%N then [] :: split_on sep rest
      else match split_on sep rest with
           | [] => [[c]]
           | p :: ps => (c :: p) :: ps
           end
  end.

(** [a == b] on lists, given [==] on their elements; on strings the
    elements are code points. *)
Fixpoint list_eqb {A} (eqb : A -> A -> bool) (a b : list A) : bool :=
  match a, b with
  | [], [] => true
  | x :: a', y :: b' => eqb x y && list_eqb eqb a' b'
  | _, _ => false
  end.

Definition str_eqb : str -> str -> bool := list_eqb N.eqb.

(** [s.startswith(prefix)] *)
Fixpoint startswith (prefix s : str) : bool :=
  match prefix, s with
  | [], _ => true
  | _ :: _, [] => false
  | p :: prefix', c :: s' => (c =? p)%N && startswith prefix' s'
  end.

(** ** The regular expression [<[^>]+>] *)

(** The characters [[^>]+] can take from the front of [s]. *)
Fixpoint tag_body (s : str) : str :=
  match s with
  | [] => []
  | c :: rest => if (c =? chr ">")%N then [] else c :: tag_body rest
  end.

(** [re.match(r'<[^>]+>', s)]: the length of the match at the front of
    [s], if there is one. The body is greedy but cannot cross a [>], so
    the match ends at the first [>], which must not follow the [<]
    immediately. *)
Definition match_tag (s : str) : option nat :=
  match s with
  | [] => None
  | c :: rest =>
      if (c =? chr "<")%N then
        let body := tag_body rest in
        match body, skipn (length body) rest with
        | _ :: _, _ :: _ => Some (length body + 2)
        | _, _ => None
        end
      else None
  end.

(** [re.sub(r'<[^>]+>', '', s)]: scan from the left; [inside] counts the
    characters of the current match still to be consumed. Outside a
    match the pattern is tried at every position; a match is replaced
    by the empty string and the scan resumes after it. *)
Fixpoint sub_tags_from (inside : nat) (s : str) : str :=
  match s with
  | [] => []
  | c :: rest =>
      match inside with
      | S k => sub_tags_from k rest
      | O =>
          match match_tag s with
          | Some n => sub_tags_from (n - 1) rest
          | None => c :: sub_tags_from 0 rest
          end
      end
  end.

Definition sub_tags (s : str) : str := sub_tags_from 0 s.

End PyStr.
Import PyStr.

(* ================================================================== *)
(** ** Numbers and bytes *)
(* ================================================================== *)

(** A Python [float]. *)
Inductive pyfloat : Type :=
| Finite (q : Q)
| Infinity (negative : bool)
| NaN.

(** [a <= b] on floats; every comparison with NaN is false. *)
Definition float_le (a b : pyfloat) : bool :=
  match a, b with
  | NaN, _ | _, NaN => false
  | Finite x, Finite y => Qle_bool x y
  | Infinity true, _ => true
  | _, Infinity false => true
  | Infinity false, _ => false
  | _, Infinity true => false
  end.

Definition bytes := list Byte.byte.

(* ================================================================== *)
(** ** The remote engine *)
(* ================================================================== *)

(** [texttospeech.SynthesisInput(ssml=...)] or [(text=...)]. *)
Inductive SynthesisInput : Type :=
| Ssml (ssml : str)
| Text (text : str).

Record VoiceSelectionParams : Type := {
  language_code : str;
  name : str
}.

Inductive AudioEncoding : Type := MP3.

Record AudioConfig : Type := {
  audio_encoding : AudioEncoding;
  speaking_rate : pyfloat;
  pitch : pyfloat;
  effects_profile_id : list str;
  sample_rate_hertz : N
}.

(** One call [client.synthesize_speech(input=, voice=, audio_config=)]. *)
Record SynthesisRequest : Type := {
  input : SynthesisInput;
  voice : VoiceSelectionParams;
  audio_config : AudioConfig
}.

(** The client of the remote engine. A call either returns the
    [audio_content] of the response or raises; the engine may change
    state from call to call. *)
Class TextToSpeechClient : Type := {
  client_state : Type;
  client_error : Type;
  synthesize_speech :
    client_state -> SynthesisRequest -> client_state * (client_error + bytes)
}.

(* ================================================================== *)
(** ** [class TTSService] *)
(* ================================================================== *)

(** The configuration set by [__init__]; the client handle is the
    [TextToSpeechClient] instance in scope. *)
Record TTSService : Type := {
  max_chars : nat
}.

(** [TTSService.__init__]: [self.max_chars = 10000]. *)
Definition TTSService_init : TTSService := {| max_chars := 10000 |}.

(** *** [_chunk_text] *)

(** The variables of the sentence loop. *)
Record chunk_loop : Type := {
  chunks : list str;
  current_chunk : str
}.

(** [if current_chunk: chunks.append(current_chunk.strip())] *)
Definition flush (st : chunk_loop) : list str :=
  if is_empty (current_chunk st) then chunks st
  else chunks st ++ [strip (current_chunk st)].

(** One iteration of [for sentence in sentences]. *)
Definition chunk_step (self : TTSService) (st : chunk_loop) (sentence : str)
  : chunk_loop :=
  let sentence := strip sentence in
  if is_empty sentence then st
  else
    let test_chunk := current_chunk st ++ sentence ++ py ". " in
    if length test_chunk <=? max_chars self
    then {| chunks := chunks st; current_chunk := test_chunk |}
    else {| chunks := flush st; current_chunk := sentence ++ py ". " |}.

(** [text.replace('!', '.').replace('?', '.').split('.')] *)
Definition sentences_of (text : str) : list str :=
  split_on (chr ".") (replace (chr "?") (chr ".") (replace (chr "!") (chr ".") text)).

Definition _chunk_text (self : TTSService) (text : str) : list str :=
  if length text <=? max_chars self then [text]
  else
    flush (fold_left (chunk_step self) (sentences_of text)
                     {| chunks := []; current_chunk := [] |}).

(** *** [_clean_text] *)

Definition _clean_text (text : str) : str :=
  let text := join (py " ") (split_ws text) in
  let text := replace 10%N (chr " ") text in
  let text := replace 13%N (chr " ") text in
  let text := replace 9%N (chr " ") text in
  let text := sub_tags text in
  strip text.

(** *** The pipeline monad *)

Section Pipeline.
Context {client : TextToSpeechClient}.

(** What [text_to_speech] can raise: its own [ValueError], or whatever
    the call to the engine raised, the Python class of which is not
    modelled. *)
Inductive exn : Type :=
| ValueError (msg : string)
| RemoteError (e : client_error).

(** The world a request runs in: the state of the remote engine and
    the log of the calls made to it, each with what it answered. *)
Record world : Type := {
  remote : client_state;
  call_log : list (SynthesisRequest * (client_error + bytes))
}.

Definition M (A : Type) : Type := world -> world * (exn + A).

Definition ret {A} (a : A) : M A := fun w => (w, inr a).

Definition raise {A} (e : exn) : M A := fun w => (w, inl e).

Definition bind {A B} (m : M A) (k : A -> M B) : M B :=
  fun w =>
    match m w with
    | (w', inl e) => (w', inl e)
    | (w', inr a) => k a w'
    end.

(** [try: body except Exception as e: logger.error(...); raise]: the
    exception caught is raised again unchanged. *)
Definition try_reraise {A} (body : M A) : M A :=
  fun w =>
    match body w with
    | (w', inl e) => (w', inl e)
    | (w', inr a) => (w', inr a)
    end.

(** [self.client.synthesize_speech(...)], awaited: the next call is
    not issued before this one has answered. *)
Definition call_synthesize_speech (req : SynthesisRequest) : M bytes :=
  fun w =>
    let (s', answer) := synthesize_speech (remote w) req in
    ({| remote := s'; call_log := call_log w ++ [(req, answer)] |},
     match answer with
     | inl e => inl (RemoteError e)
     | inr audio_content => inr audio_content
     end).

End Pipeline.

Notation "x <- m ;; k" := (bind m (fun x => k))
  (at level 61, m at next level, right associativity).

Section Synthesis.
Context {client : TextToSpeechClient}.

(** The request built for one chunk (lines 116-135). *)
Definition synthesis_input (is_ssml : bool) (chunk : str) : SynthesisInput :=
  if is_ssml && startswith (py "<?xml") (strip chunk)
  then Ssml chunk
  else Text chunk.

Definition build_request (voice_name language_code : str)
           (speaking_rate pitch : pyfloat) (is_ssml : bool) (chunk : str)
  : SynthesisRequest :=
  {| input := synthesis_input is_ssml chunk;
     voice := {| language_code := language_code; name := voice_name |};
     audio_config :=
       {| audio_encoding := MP3;
          speaking_rate := speaking_rate;
          pitch := pitch;
          effects_profile_id := [py "headphone-class-device"];
          sample_rate_hertz := 24000%N |} |}.

(** [for i, chunk in enumerate(chunks)]: one call per chunk, in order,
    the answers appended to [audio_segments]. *)
Fixpoint process_chunks (voice_name language_code : str)
         (speaking_rate pitch : pyfloat) (is_ssml : bool)
         (chunks : list str) (audio_segments : list bytes)
  : M (list bytes) :=
  match chunks with
  | [] => ret audio_segments
  | chunk :: rest =>
      audio_content <-
        call_synthesize_speech
          (build_request voice_name language_code speaking_rate pitch
                         is_ssml chunk) ;;
      process_chunks voice_name language_code speaking_rate pitch is_ssml
                     rest (audio_segments ++ [audio_content])
  end.

(** [TTSService.text_to_speech] *)
Definition text_to_speech (self : TTSService) (text voice_name language_code : str)
           (speaking_rate pitch : pyfloat) (is_ssml : bool) : M bytes :=
  try_reraise
    (if is_empty (strip text)
     then raise (ValueError "Text cannot be empty")
     else
       let text := _clean_text text in
       let chunks := _chunk_text self text in
       audio_segments <-
         process_chunks voice_name language_code speaking_rate pitch
                        is_ssml chunks [] ;;
       ret (concat audio_segments)).

End Synthesis.

(** *** [validate_voice] *)

Definition common_voices : list str :=
  map py ["en-US-Neural2-A"; "en-US-Neural2-C"; "en-US-Neural2-D";
          "en-US-Neural2-E"; "en-US-Neural2-F"; "en-US-Neural2-G";
          "en-US-Neural2-H"; "en-US-Neural2-I"; "en-US-Neural2-J"]%string.

Definition validate_voice (voice_name language_code : str) : bool :=
  existsb (fun v => if list_eq_dec N.eq_dec voice_name v then true else false)
          common_voices.

(* ================================================================== *)
(** ** [main.py]: the request boundary *)
(* ================================================================== *)

Module Api.

(** The JSON body of [POST /generate-audio] once its fields are read
    as a string or a float; a field the body does not carry is [None]. *)
Record body : Type := {
  body_text : option str;
  body_voice_name : option str;
  body_language_code : option str;
  body_speaking_rate : option pyfloat;
  body_pitch : option pyfloat
}.

(** [class TextToSpeechRequest(BaseModel)] *)
Record TextToSpeechRequest : Type := {
  text : str;
  voice_name : str;
  language_code : str;
  speaking_rate : pyfloat;
  pitch : pyfloat
}.

(** [Field(..., ge=lo, le=hi)] *)
Definition in_range (lo hi v : pyfloat) : bool :=
  float_le lo v && float_le v hi.

Definition rate_ok (v : pyfloat) : bool :=
  in_range (Finite (1 # 4)) (Finite (4 # 1)) v.

Definition pitch_ok (v : pyfloat) : bool :=
  in_range (Finite (- (20 # 1))) (Finite (20 # 1)) v.

Definition default {A} (d : A) (o : option A) : A :=
  match o with Some a => a | None => d end.

(** Construction of the model from the body: the declared defaults,
    then the declared constraints. [None] is the validation error the
    framework answers with before the handler runs. *)
Definition parse (b : body) : option TextToSpeechRequest :=
  match body_text b with
  | None => None
  | Some t =>
      let r := default (Finite (1 # 1)) (body_speaking_rate b) in
      let p := default (Finite (0 # 1)) (body_pitch b) in
      if (1 <=? length t) && (length t <=? 50000) && rate_ok r && pitch_ok p
      then Some {| text := t;
                   voice_name := default (py "en-US-Neural2-D") (body_voice_name b);
                   language_code := default (py "en-US") (body_language_code b);
                   speaking_rate := r;
                   pitch := p |}
      else None
  end.

Section Handler.
Context {client : TextToSpeechClient}.

Inductive response : Type :=
| RequestValidationError
| StreamingResponse (audio_data : bytes)
| HTTPException (status_code : nat) (cause : exn).

(** [generate_audio]: the voice check only logs a warning;
    [text_to_speech] is called without [is_ssml], so with its
    default [False]. *)
Definition generate_audio (tts : TTSService) (b : body)
  : world -> world * response :=
  fun w =>
    match parse b with
    | None => (w, RequestValidationError)
    | Some request =>
        match text_to_speech tts (text request) (voice_name request)
                (language_code request) (speaking_rate request)
                (pitch request) false w with
        | (w', inr audio_data) => (w', StreamingResponse audio_data)
        | (w', inl (ValueError msg)) =>
            (w', HTTPException 400 (ValueError msg))
        | (w', inl e) => (w', HTTPException 500 e)
        end
    end.

End Handler.

End Api.

(* ================================================================== *)
(** ** Mock engines and sample inputs *)
(* ================================================================== *)

Definition byte_of_nat (i : nat) : Byte.byte :=
  match Byte.of_N (N.of_nat i) with
  | Some b => b
  | None => Byte.x00
  end.

(** The engine that answers call [i] with [bytes([i]) * 10], except
    that the calls listed in [failing] raise a transport error. *)
Definition mock_client (failing : list nat) : TextToSpeechClient :=
  {| client_state := nat;
     client_error := string;
     synthesize_speech := fun i _ =>
       (S i,
        if existsb (Nat.eqb i) failing
        then inl "transport error"%string
        else inr (repeat (byte_of_nat i) 10)) |}.

Definition fresh_world (c : TextToSpeechClient) (s : @client_state c)
  : @world c :=
  {| remote := s; call_log := [] |}.

Definition voice_D : str := py "en-US-Neural2-D".
Definition en_US : str := py "en-US".
Definition one : pyfloat := Finite (1 # 1).
Definition zero : pyfloat := Finite (0 # 1).

(** 25,012 characters of short sentences (25,011 once cleaned). *)
Definition short_sentences : str :=
  concat (repeat (py "Hello world. ") 1924).

(** Two sentences of 6,000 letters, and 20,000 letters in one piece. *)
Definition two_long_sentences : str :=
  repeat (chr "a") 6000 ++ py ". " ++ repeat (chr "a") 6000 ++ py ".".

Definition one_long_word : str := repeat (chr "a") 20000.

(** A document a markup client sends. *)
Definition ssml_document : str :=
  py "<?xml version='1.0'?><speak>Hello <break time='1s'/> world</speak>".

(* ================================================================== *)
(** ** The voice catalog and the other endpoints *)
(* ================================================================== *)

(** [needle in hay] on strings. *)
Fixpoint contains (needle hay : str) : bool :=
  startswith needle hay
  || match hay with
     | [] => false
     | _ :: rest => contains needle rest
     end.

(** [texttospeech.SsmlVoiceGender] and the [.name] of its members. *)
Inductive SsmlVoiceGender : Type :=
| SSML_VOICE_GENDER_UNSPECIFIED
| MALE
| FEMALE
| NEUTRAL.

Definition gender_name (g : SsmlVoiceGender) : str :=
  match g with
  | SSML_VOICE_GENDER_UNSPECIFIED => py "SSML_VOICE_GENDER_UNSPECIFIED"
  | MALE => py "MALE"
  | FEMALE => py "FEMALE"
  | NEUTRAL => py "NEUTRAL"
  end.

(** One voice of the response of [list_voices]. The sample rate is
    [None] when the object has no attribute [natural_sample_rate_hertz]. *)
Record Voice : Type := {
  voice_name_of : str;
  language_codes : list str;
  ssml_gender : SsmlVoiceGender;
  natural_sample_rate_hertz : option N
}.

(** The dictionary [get_available_voices] builds for a voice. *)
Record VoiceInfo : Type := {
  info_name : str;
  info_language_code : str;
  info_gender : str;
  info_natural_sample_rate : N
}.

Definition voice_info (language_code : str) (v : Voice) : VoiceInfo :=
  {| info_name := voice_name_of v;
     info_language_code :=
       match language_codes v with
       | first :: _ => first
       | [] => language_code
       end;
     info_gender := gender_name (ssml_gender v);
     info_natural_sample_rate :=
       match natural_sample_rate_hertz v with
       | Some rate => rate
       | None => 24000%N
       end |}.

(** The loop over [response.voices]: the voices whose name holds
    [Neural2], in the order of the response. *)
Fixpoint neural2_voices (language_code : str) (response_voices : list Voice)
  : list VoiceInfo :=
  match response_voices with
  | [] => []
  | v :: rest =>
      if contains (py "Neural2") (voice_name_of v)
      then voice_info language_code v :: neural2_voices language_code rest
      else neural2_voices language_code rest
  end.

(** [TTSService.get_available_voices]: [list_voices] is the call to the
    remote directory, which returns its voices or raises; what it
    raises is raised again. *)
Definition get_available_voices {E : Type}
           (list_voices : str -> E + list Voice) (language_code : str)
  : E + list VoiceInfo :=
  match list_voices language_code with
  | inl e => inl e
  | inr response_voices =>
      inr (firstn 15 (neural2_voices language_code response_voices))
  end.

Module Endpoints.

(** What an endpoint answers: a body, or [HTTPException(status_code)]. *)
Inductive answer (A : Type) : Type :=
| Ok (body : A)
| HTTPException (status_code : nat).
Arguments Ok {A} body.
Arguments HTTPException {A} status_code.

(** [GET /voices] *)
Definition get_voices {E : Type} (list_voices : str -> E + list Voice)
           (language_code : str) : answer (list VoiceInfo) :=
  match get_available_voices list_voices language_code with
  | inr voices => Ok voices
  | inl _ => HTTPException 500
  end.

(** [GET /health]: the body carries [len(test_voices)]; the voices are
    asked for with the default language code. *)
Definition health_check {E : Type} (list_voices : str -> E + list Voice)
  : answer nat :=
  match get_available_voices list_voices (py "en-US") with
  | inr test_voices => Ok (length test_voices)
  | inl _ => HTTPException 503
  end.

(** A value of the JSON object [POST /validate-text] receives: a
    string, or anything else (null, a number, a list, ...), which has
    no method [strip]. *)
Inductive json_value : Type :=
| JString (s : str)
| JNotString.

(** The object itself, and [request.get(key, default)]. *)
Definition dict : Type := list (string * json_value).

Fixpoint dict_get (request : dict) (key : string) (default : json_value)
  : json_value :=
  match request with
  | [] => default
  | (k, v) :: rest =>
      if String.eqb k key then v else dict_get rest key default
  end.

(** The dictionaries [validate_text] returns. *)
Inductive validation : Type :=
| Invalid (error : string)
| Valid (character_count : nat) (estimated_time_seconds : pyfloat)
        (chunks_needed : nat).

Section ValidateText.

(** [round(len(text) / 1000 * 2, 1)] as a function of [len(text)]: float
    division and rounding to one decimal are not modelled. *)
Variable rounded_estimate : nat -> pyfloat.

(** [POST /validate-text]. On a value that is no string,
    [text.strip()] raises and the handler answers 500. *)
Definition validate_text (request : dict) : answer validation :=
  match dict_get request "text" (JString []) with
  | JNotString => HTTPException 500
  | JString text =>
      if is_empty (strip text)
      then Ok (Invalid "Text cannot be empty")
      else if 50000 <? length text
      then Ok (Invalid "Text too long (max 50,000 characters)")
      else Ok (Valid (length text) (rounded_estimate (length text))
                     (length text / 5000 + 1))
  end.

End ValidateText.

End Endpoints.

(** A directory of three voices, one of them not of the Neural2 tier,
    and a directory that is down. *)
Definition sample_directory (language_code : str) : string + list Voice :=
  inr [ {| voice_name_of := py "en-US-Neural2-A";
           language_codes := [py "en-US"];
           ssml_gender := MALE;
           natural_sample_rate_hertz := Some 24000%N |};
        {| voice_name_of := py "en-US-Standard-B";
           language_codes := [py "en-US"];
           ssml_gender := MALE;
           natural_sample_rate_hertz := Some 24000%N |};
        {| voice_name_of := py "en-GB-Neural2-C";
           language_codes := [];
           ssml_gender := FEMALE;
           natural_sample_rate_hertz := None |} ].

Definition directory_down (language_code : str) : string + list Voice :=
  inl "unavailable"%string.

(** A short sentence, then one of exactly 10,000 letters. *)
Definition sentence_at_limit : str := py "b." ++ repeat (chr "a") 10000.

(** 10,001 periods: text beyond the limit without a sentence. *)
Definition periods_only : str := repeat (chr ".") 10001.

(** The body of a request that carries nothing but its text. *)
Definition text_only_body (t : str) : Api.body :=
  {| Api.body_text := Some t;
     Api.body_voice_name := None;
     Api.body_language_code := None;
     Api.body_speaking_rate := None;
     Api.body_pitch := None |}.

(* ================================================================== *)
(** ** Vocabulary of the properties *)
(* ================================================================== *)

(** The string carried by a synthesis input, and whether it is markup. *)
Definition content (i : SynthesisInput) : str :=
  match i with Ssml s => s | Text s => s end.

Definition is_markup (i : SynthesisInput) : bool :=
  match i with Ssml _ => true | Text _ => false end.

(** No whitespace at either end. *)
Definition no_outer_whitespace (c : str) : Prop :=
  (forall a r, c = a :: r -> isspace a = false)
  /\ (forall r a, c = r ++ [a] -> isspace a = false).

Definition ends_with_period (c : str) : Prop :=
  exists w, c = w ++ py ".".

Definition free_of_marks (w : str) : Prop :=
  ~ In (chr "!") w /\ ~ In (chr "?") w.

(** Text that begins with a character that is not whitespace, holds no
    [!] and no [?], and is followed by [tail]. *)
Definition sentence_run (tail c : str) : Prop :=
  exists a w,
    c = (a :: w) ++ tail /\ isspace a = false /\ free_of_marks (a :: w).

(** [c] is one sentence of [text], stripped, followed by [tail]. *)
Definition whole_sentence (text tail c : str) : Prop :=
  exists sentence,
    In sentence (sentences_of text) /\ strip sentence <> []
    /\ c = strip sentence ++ tail.

Definition within_limit_or_sentence (self : TTSService) (text tail c : str)
  : Prop :=
  length c <= max_chars self \/ whole_sentence text tail c.

(** Text with something to say: a character that is neither whitespace
    nor a sentence terminator. *)
Definition has_sentence (text : str) : Prop :=
  exists c,
    In c text /\ isspace c = false
    /\ c <> chr "." /\ c <> chr "!" /\ c <> chr "?".

(** The state of the sentence loop [b] is at least as far as [a]: more
    chunks closed, or as many and an accumulator at least as long. *)
Definition precedes (a b : chunk_loop) : Prop :=
  length (chunks a) < length (chunks b)
  \/ (length (chunks a) = length (chunks b)
      /\ length (current_chunk a) <= length (current_chunk b)).

(** What the engine answers when it is asked [requests] one after the
    other, starting in state [s]. *)
Fixpoint answers_from {client : TextToSpeechClient} (s : client_state)
         (requests : list SynthesisRequest) : list (client_error + bytes) :=
  match requests with
  | [] => []
  | req :: rest =>
      let (s', answer) := synthesize_speech s req in
      answer :: answers_from s' rest
  end.

(** A value outside the closed range from [lo] to [hi]; NaN is in no
    range. *)
Definition outside (lo hi : Q) (v : pyfloat) : Prop :=
  match v with
  | Finite q => (q < lo)%Q \/ (hi < q)%Q
  | Infinity _ => True
  | NaN => True
  end.

(** Invariants of the sentence loop of [_chunk_text]. *)
Definition bound_inv (self : TTSService) (text : str) (st : chunk_loop)
  : Prop :=
  Forall (within_limit_or_sentence self text (py ".")) (chunks st)
  /\ within_limit_or_sentence self text (py ". ") (current_chunk st).

Definition shape_inv (st : chunk_loop) : Prop :=
  Forall (sentence_run (py ".")) (chunks st)
  /\ (current_chunk st = [] \/ sentence_run (py ". ") (current_chunk st)).

(** What a run of the chunk loop leaves behind, [build] being the
    request made for a chunk. The log grows by one entry per call; the
    calls are for the first chunks, in order, and the log holds what
    the engine answered. A run that returns has called for every chunk
    and returns the answers in that order; a run that raises stopped at
    its last call, the only one that failed. *)
Definition loop_outcome {client : TextToSpeechClient}
           (build : str -> SynthesisRequest)
           (chunks : list str) (acc : list bytes)
           (w w' : world) (r : exn + list bytes)
           (new : list (SynthesisRequest * (client_error + bytes))) : Prop :=
  call_log w' = call_log w ++ new
  /\ map fst new = map build (firstn (length new) chunks)
  /\ map snd new = answers_from (remote w) (map fst new)
  /\ match r with
     | inr segments =>
         exists answers,
           segments = acc ++ answers
           /\ map snd new = map inr answers
           /\ length new = length chunks
     | inl e =>
         exists early req e0,
           new = early ++ [(req, inl e0)]
           /\ e = RemoteError e0
           /\ Forall (fun en => exists audio, snd en = inr audio) early
     end.

(** No tag is left: the pattern [<[^>]+>] matches at no position. *)
Definition tagless (t : str) : Prop :=
  forall pre post, t = pre ++ post -> match_tag post = None.

(** The only whitespace is the plain space. *)
Definition only_plain_spaces (t : str) : Prop :=
  forall c, In c t -> isspace c = true -> c = chr " ".

(** The sentences the loop of [_chunk_text] does not skip, stripped. *)
Definition nonblank (sentences : list str) : list str :=
  filter (fun s => negb (is_empty s)) (map strip sentences).

Definition nonblank_sentences (text : str) : list str :=
  nonblank (sentences_of text).

(** An accumulator that is empty or begins with a character that is not
    whitespace and ends with a period and a space. *)
Definition open_run (cur : str) : Prop :=
  cur = [] \/ exists a w, cur = (a :: w) ++ py ". " /\ isspace a = false.

(** The chunks closed so far and the accumulator spell out the
    sentences taken so far, and no chunk is without a sentence. *)
Definition spell_inv (st : chunk_loop) (taken : list str) : Prop :=
  concat (map (fun c => c ++ py " ") (chunks st)) ++ current_chunk st
  = concat (map (fun s => s ++ py ". ") taken)
  /\ open_run (current_chunk st)
  /\ length (flush st) <= length taken.

(** The handler refused the input: a validation error or a 400. *)
Definition refuses_input {client : TextToSpeechClient} (resp : Api.response)
  : bool :=
  match resp with
  | Api.RequestValidationError => true
  | Api.HTTPException status_code _ => status_code =? 400
  | Api.StreamingResponse _ => false
  end.

(** The voices of a response that are of the Neural2 tier. *)
Definition is_neural2 (v : Voice) : bool :=
  contains (py "Neural2") (voice_name_of v).


(** Text that begins with a character that is not whitespace. *)
Definition headed (s : str) : Prop :=
  exists a w, s = a :: w /\ isspace a = false.

(** Every sentence taken so far that has at least [max_chars]
    characters is a chunk of its own, closed or still open. *)
Definition solo_inv (self : TTSService) (st : chunk_loop)
           (taken : list str) : Prop :=
  Forall headed taken
  /\ forall s,
      In s taken -> max_chars self <= length s ->
      In (s ++ py ".") (chunks st) \/ current_chunk st = s ++ py ". ".


(* ================================================================== *)
(** ** Facts about the string operations *)
(* ================================================================== *)

Section StringFacts.

Lemma is_empty_true (s : str) : is_empty s = true <-> s = [].
Proof. destruct s; simpl; split; congruence. Qed.

Lemma is_empty_false (s : str) : is_empty s = false <-> s <> [].
Proof. destruct s; simpl; split; congruence. Qed.

Lemma is_empty_length (s : str) : is_empty s = false -> 0 < length s.
Proof. destruct s; simpl; [discriminate | lia]. Qed.

Lemma list_eqb_eq {A} (eqb : A -> A -> bool) :
  (forall x y, eqb x y = true -> x = y) ->
  forall a b, list_eqb eqb a b = true -> a = b.
Proof.
  intros Heq; induction a as [|x a IH]; intros [|y b]; simpl;
    try discriminate; [reflexivity|].
  intros H. apply andb_prop in H. destruct H as [Hxy Hab].
  f_equal; [apply Heq, Hxy | apply IH, Hab].
Qed.

Lemma str_eqb_eq (a b : str) : str_eqb a b = true -> a = b.
Proof. apply list_eqb_eq. intros x y; apply N.eqb_eq. Qed.

(** *** [lstrip], [rstrip], [strip] *)

Lemma lstrip_length (s : str) : length (lstrip s) <= length s.
Proof.
  induction s as [|c s IH]; simpl; [lia|].
  destruct (isspace c); simpl; lia.
Qed.

Lemma lstrip_In (s : str) (c : char) : In c (lstrip s) -> In c s.
Proof.
  induction s as [|a s IH]; simpl; [tauto|].
  destruct (isspace a); simpl; tauto.
Qed.

Lemma lstrip_head (s r : str) (c : char) :
  lstrip s = c :: r -> isspace c = false.
Proof.
  induction s as [|a s IH]; simpl; [discriminate|].
  destruct (isspace a) eqn:Ha; [exact IH|].
  intros E; injection E as <- _; exact Ha.
Qed.

Lemma lstrip_nonspace (c : char) (s : str) :
  isspace c = false -> lstrip (c :: s) = c :: s.
Proof. simpl; intros ->; reflexivity. Qed.

Lemma rstrip_cons (c : char) (s : str) :
  isspace c = false -> rstrip (c :: s) = c :: rstrip s.
Proof.
  simpl; intros ->. destruct (rstrip s); reflexivity.
Qed.

Lemma rstrip_length (s : str) : length (rstrip s) <= length s.
Proof.
  induction s as [|c s IH]; simpl; [lia|].
  destruct (rstrip s); [destruct (isspace c)|]; simpl in *; lia.
Qed.

Lemma rstrip_In (s : str) (c : char) : In c (rstrip s) -> In c s.
Proof.
  induction s as [|a s IH]; simpl; [tauto|].
  destruct (rstrip s); [destruct (isspace a)|]; simpl in *; tauto.
Qed.

(** What [rstrip] keeps does not end with whitespace. *)
Lemma rstrip_last (s r : str) (c : char) :
  rstrip s = r ++ [c] -> isspace c = false.
Proof.
  revert r; induction s as [|a s IH]; intros r; simpl.
  - destruct r; discriminate.
  - destruct (rstrip s) as [|k kept] eqn:Ek.
    + destruct (isspace a) eqn:Ha; [destruct r; discriminate|].
      destruct r as [|x [|y r]]; simpl; try discriminate.
      intros E; injection E as <-; exact Ha.
    + destruct r as [|x r]; simpl; [discriminate|].
      intros E; injection E as _ E. exact (IH _ E).
Qed.

(** Text that does not end with whitespace is kept whole, with all
    that comes before it. *)
Lemma rstrip_app (w x : str) :
  rstrip x <> [] -> rstrip (w ++ x) = w ++ rstrip x.
Proof.
  intros Hx; induction w as [|c w IH]; simpl; [reflexivity|].
  rewrite IH. destruct (w ++ rstrip x) eqn:E; [|reflexivity].
  destruct w; simpl in E; [contradiction | discriminate].
Qed.

Lemma strip_length (s : str) : length (strip s) <= length s.
Proof.
  unfold strip. pose proof (rstrip_length (lstrip s)).
  pose proof (lstrip_length s). lia.
Qed.

Lemma strip_In (s : str) (c : char) : In c (strip s) -> In c s.
Proof. unfold strip; intros H; apply lstrip_In, rstrip_In, H. Qed.

Lemma strip_head (s r : str) (c : char) :
  strip s = c :: r -> isspace c = false.
Proof.
  unfold strip. destruct (lstrip s) as [|a l] eqn:El; [discriminate|].
  pose proof (lstrip_head _ _ _ El) as Ha.
  rewrite (rstrip_cons _ _ Ha). intros E; injection E as <- _; exact Ha.
Qed.

Lemma strip_last (s r : str) (c : char) :
  strip s = r ++ [c] -> isspace c = false.
Proof. unfold strip; apply rstrip_last. Qed.

(** A sentence and its terminator: the space after the period is all
    that [strip] removes. *)
Lemma strip_sentence_period (c : char) (w : str) :
  isspace c = false ->
  strip ((c :: w) ++ py ". ") = (c :: w) ++ py ".".
Proof.
  intros Hc. unfold strip. simpl app at 1.
  rewrite (lstrip_nonspace _ _ Hc).
  change (c :: w ++ py ". ") with ((c :: w) ++ py ". ").
  rewrite rstrip_app; [reflexivity | discriminate].
Qed.

(** Stripping text that begins with [s] keeps at least as much as
    stripping [s] alone. *)
Lemma lstrip_app_length (p q : str) :
  length (lstrip q) <= length (lstrip (p ++ q)).
Proof.
  induction p as [|c p IH]; simpl; [lia|].
  destruct (isspace c); [exact IH|].
  simpl. rewrite length_app. pose proof (lstrip_length q). lia.
Qed.

Lemma rstrip_app_length (p q : str) :
  length (rstrip p) <= length (rstrip (p ++ q)).
Proof.
  induction p as [|c p IH]; simpl; [lia|].
  destruct (rstrip p) as [|k kept] eqn:Ep;
    destruct (rstrip (p ++ q)) as [|k' kept'] eqn:Epq;
    destruct (isspace c); simpl in *; lia.
Qed.

Lemma strip_app_length (s u : str) :
  length (strip s) <= length (strip (s ++ u)).
Proof.
  unfold strip.
  destruct (lstrip s) as [|a l] eqn:El; [simpl; lia|].
  assert (lstrip (s ++ u) = lstrip s ++ u) as ->.
  { clear -El. induction s as [|c s IH]; simpl in *; [discriminate|].
    destruct (isspace c); [exact (IH El) | reflexivity]. }
  rewrite El. apply rstrip_app_length.
Qed.

(** A character that is not whitespace survives stripping. *)
Lemma lstrip_keeps (s : str) (c : char) :
  In c s -> isspace c = false -> In c (lstrip s).
Proof.
  intros Hin Hc. induction s as [|a s IH]; simpl in *; [contradiction|].
  destruct (isspace a) eqn:Ha; [|exact Hin].
  destruct Hin as [-> | Hin]; [congruence | exact (IH Hin)].
Qed.

Lemma rstrip_keeps (s : str) (c : char) :
  In c s -> isspace c = false -> In c (rstrip s).
Proof.
  intros Hin Hc. induction s as [|a s IH]; simpl in *; [contradiction|].
  destruct Hin as [-> | Hin].
  - destruct (rstrip s); [rewrite Hc|]; left; reflexivity.
  - specialize (IH Hin). destruct (rstrip s); [contradiction|].
    right; exact IH.
Qed.

Lemma strip_keeps (s : str) (c : char) :
  In c s -> isspace c = false -> In c (strip s).
Proof.
  intros Hin Hc. unfold strip. apply rstrip_keeps; [|exact Hc].
  apply lstrip_keeps; assumption.
Qed.

(** *** [replace] and [split] *)

Lemma replace_app (old new : char) (a b : str) :
  replace old new (a ++ b) = replace old new a ++ replace old new b.
Proof. apply map_app. Qed.

Lemma replace_length (old new : char) (s : str) :
  length (replace old new s) = length s.
Proof. apply length_map. Qed.

Lemma replace_In (old new c : char) (s : str) :
  In c (replace old new s) -> c = new \/ (c <> old /\ In c s).
Proof.
  unfold replace; rewrite in_map_iff. intros (x & E & Hx).
  destruct (N.eqb_spec x old); subst; auto.
Qed.

Lemma split_on_nonempty (sep : char) (s : str) : split_on sep s <> [].
Proof.
  destruct s as [|c s]; simpl; [discriminate|].
  destruct (c =? sep)%N; [discriminate|].
  destruct (split_on sep s); discriminate.
Qed.

(** A piece holds characters of the text, none of them the separator. *)
Lemma split_on_In (sep : char) (s piece : str) (c : char) :
  In piece (split_on sep s) -> In c piece -> c <> sep /\ In c s.
Proof.
  revert piece; induction s as [|a s IH]; intros piece; simpl.
  - intros [<-|[]] [].
  - destruct (N.eqb_spec a sep) as [->|Hne].
    + intros [<-|Hp] Hc; [destruct Hc|].
      destruct (IH _ Hp Hc); auto.
    + destruct (split_on sep s) as [|p ps] eqn:Es.
      * intros [<-|[]] [<-|[]]; auto.
      * intros [<-|Hp] Hc.
        -- destruct Hc as [<-|Hc]; [auto|].
           destruct (IH p (or_introl eq_refl) Hc); auto.
        -- destruct (IH piece (or_intror Hp) Hc); auto.
Qed.

Lemma replace_keeps (old new c : char) (s : str) :
  In c s -> c <> old -> In c (replace old new s).
Proof.
  intros Hin Hne. unfold replace. apply in_map_iff. exists c.
  split; [|exact Hin]. destruct (N.eqb_spec c old); congruence.
Qed.

(** Every character other than the separator is in some piece. *)
Lemma split_on_covers (sep c : char) (s : str) :
  In c s -> c <> sep ->
  exists piece, In piece (split_on sep s) /\ In c piece.
Proof.
  intros Hin Hne. induction s as [|a s IH]; simpl in *; [contradiction|].
  destruct (N.eqb_spec a sep) as [->|Ha].
  - destruct Hin as [-> | Hin]; [congruence|].
    destruct (IH Hin) as (piece & Hp & Hc).
    exists piece. split; [right; exact Hp | exact Hc].
  - pose proof (split_on_nonempty sep s) as Hs.
    destruct (split_on sep s) as [|p ps]; [contradiction|].
    destruct Hin as [-> | Hin].
    + exists (c :: p). split; left; reflexivity.
    + destruct (IH Hin) as (piece & [<- | Hp] & Hc).
      * exists (a :: p). split; [left; reflexivity | right; exact Hc].
      * exists piece. split; [right; exact Hp | exact Hc].
Qed.

(** Splitting a text that continues: the last piece of the first part
    runs on into the first piece of what follows. *)
Lemma split_on_app (sep : char) (a b : str) :
  split_on sep (a ++ b) =
  removelast (split_on sep a)
    ++ (last (split_on sep a) [] ++ hd [] (split_on sep b))
    :: tl (split_on sep b).
Proof.
  induction a as [|c a IH]; simpl.
  - pose proof (split_on_nonempty sep b).
    destruct (split_on sep b); [contradiction | reflexivity].
  - destruct (c =? sep)%N.
    + rewrite IH. pose proof (split_on_nonempty sep a).
      destruct (split_on sep a); [contradiction | reflexivity].
    + rewrite IH. pose proof (split_on_nonempty sep a).
      destruct (split_on sep a) as [|p [|p' ps]]; [contradiction| |];
        reflexivity.
Qed.

End StringFacts.

(* ================================================================== *)
(** ** The chunker *)
(* ================================================================== *)

Section ChunkerFacts.
Variable self : TTSService.

(** A property that every iteration keeps holds when the loop ends. *)
Lemma loop_invariant {A B} (f : A -> B -> A) (I : A -> Prop) (Q : B -> Prop) :
  (forall a b, I a -> Q b -> I (f a b)) ->
  forall l, Forall Q l -> forall a, I a -> I (fold_left f l a).
Proof.
  intros Hstep l Hl; induction Hl as [|b l Hb _ IH]; simpl; auto.
Qed.

Lemma flush_length (st : chunk_loop) :
  length (flush st) =
  length (chunks st) + (if is_empty (current_chunk st) then 0 else 1).
Proof.
  unfold flush. destruct (is_empty (current_chunk st));
    [|rewrite length_app; simpl]; lia.
Qed.

Lemma Forall_flush (P : str -> Prop) (st : chunk_loop) :
  Forall P (chunks st) ->
  (current_chunk st <> [] -> P (strip (current_chunk st))) ->
  Forall P (flush st).
Proof.
  intros Hc Hcur. unfold flush.
  destruct (is_empty (current_chunk st)) eqn:E; [exact Hc|].
  apply Forall_app; split; [exact Hc|].
  constructor; [|constructor]. apply Hcur, is_empty_false, E.
Qed.

(** *** Length of the chunks *)

Section Bound.
Variable text : str.

#[local] Abbreviation bounded := (within_limit_or_sentence self text).
#[local] Abbreviation bound_inv := (bound_inv self text).

Lemma bounded_strip (cur : str) :
  within_limit_or_sentence self text (py ". ") cur ->
  within_limit_or_sentence self text (py ".") (strip cur).
Proof.
  intros [Hle | (sentence & Hin & Hne & ->)].
  - left. pose proof (strip_length cur). lia.
  - right. exists sentence. repeat split; auto.
    destruct (strip sentence) as [|a w] eqn:Es; [contradiction|].
    apply strip_sentence_period. exact (strip_head _ _ _ Es).
Qed.

Lemma bound_inv_flush (st : chunk_loop) :
  bound_inv st -> Forall (bounded (py ".")) (flush st).
Proof.
  intros [Hc Hcur]. apply Forall_flush; [exact Hc|].
  intros _. apply bounded_strip, Hcur.
Qed.

Lemma bound_inv_step (st : chunk_loop) (sentence : str) :
  bound_inv st -> In sentence (sentences_of text) ->
  bound_inv (chunk_step self st sentence).
Proof.
  intros Hinv Hin. unfold chunk_step.
  destruct (is_empty (strip sentence)) eqn:Ee; [exact Hinv|].
  destruct (Nat.leb_spec
              (length (current_chunk st ++ strip sentence ++ py ". "))
              (max_chars self)) as [Hfit|Hover].
  - destruct Hinv as [Hc _]. split; [exact Hc|]. left. exact Hfit.
  - split; [apply bound_inv_flush, Hinv|]. right.
    exists sentence. repeat split; auto. apply is_empty_false, Ee.
Qed.

Lemma chunk_text_bounded :
  Forall (within_limit_or_sentence self text (py "."))
         (_chunk_text self text).
Proof.
  unfold _chunk_text.
  destruct (Nat.leb_spec (length text) (max_chars self)) as [Hle|Hgt].
  - constructor; [left; exact Hle | constructor].
  - apply bound_inv_flush.
    apply (loop_invariant (chunk_step self) bound_inv
             (fun s => In s (sentences_of text))).
    + intros; apply bound_inv_step; assumption.
    + apply Forall_forall; auto.
    + split; [constructor | left; simpl; lia].
Qed.

End Bound.

(** *** Shape of the chunks on the splitting path *)

Section Shape.

Lemma shape_inv_flush (st : chunk_loop) :
  shape_inv st -> Forall (sentence_run (py ".")) (flush st).
Proof.
  intros [Hc Hcur]. apply Forall_flush; [exact Hc|].
  intros Hne. destruct Hcur as [E | (a & w & E & Ha & Hw)];
    [contradiction|].
  exists a, w. rewrite E. split; [|split]; auto.
  apply strip_sentence_period, Ha.
Qed.

Lemma free_of_marks_app (u v : str) :
  free_of_marks u -> free_of_marks v -> free_of_marks (u ++ v).
Proof.
  intros [U1 U2] [V1 V2]; split; rewrite in_app_iff; tauto.
Qed.

Lemma shape_inv_step (st : chunk_loop) (sentence : str) :
  shape_inv st -> free_of_marks sentence ->
  shape_inv (chunk_step self st sentence).
Proof.
  intros Hinv Hclean. unfold chunk_step.
  destruct (strip sentence) as [|a w] eqn:Es; [exact Hinv|].
  assert (Ha : isspace a = false) by exact (strip_head _ _ _ Es).
  assert (Hw : free_of_marks (a :: w)).
  { rewrite <- Es. destruct Hclean as [H1 H2].
    split; intros H; apply strip_In in H; tauto. }
  simpl is_empty. cbv iota.
  destruct (length (current_chunk st ++ (a :: w) ++ py ". ")
            <=? max_chars self).
  - destruct Hinv as [Hc Hcur]. split; [exact Hc|]. right. simpl.
    destruct Hcur as [-> | (b & v & -> & Hb & Hv)].
    + exists a, w. auto.
    + exists b, (v ++ py ". " ++ a :: w). split; [|split; [exact Hb|]].
      * simpl. rewrite <- !app_assoc. reflexivity.
      * change (b :: v ++ py ". " ++ a :: w)
          with ((b :: v) ++ py ". " ++ a :: w).
        repeat apply free_of_marks_app; auto.
        split; simpl; intros [H|[H|[]]]; discriminate.
  - split; [apply shape_inv_flush, Hinv|]. right.
    exists a, w. auto.
Qed.

Lemma sentences_free_of_marks (text : str) :
  Forall free_of_marks (sentences_of text).
Proof.
  apply Forall_forall. intros piece Hp. unfold sentences_of in Hp.
  split; intros Hc; destruct (split_on_In _ _ _ _ Hp Hc) as [_ H];
    apply replace_In in H.
  - destruct H as [H | [_ H]]; [discriminate|].
    apply replace_In in H. destruct H as [H | [H _]];
      [discriminate | congruence].
  - destruct H as [H | [H _]]; [discriminate | congruence].
Qed.

Lemma chunk_text_shaped (text : str) :
  max_chars self < length text ->
  Forall (sentence_run (py ".")) (_chunk_text self text).
Proof.
  intros Hgt. unfold _chunk_text.
  destruct (Nat.leb_spec (length text) (max_chars self)); [lia|].
  apply shape_inv_flush.
  apply (loop_invariant (chunk_step self) shape_inv free_of_marks).
  - intros; apply shape_inv_step; assumption.
  - apply sentences_free_of_marks.
  - split; [constructor | left; reflexivity].
Qed.

End Shape.

(** *** Growth of the chunk count when text is appended *)

Section Growth.

Lemma precedes_refl (a : chunk_loop) : precedes a a.
Proof. right; split; lia. Qed.

Lemma precedes_trans (a b c : chunk_loop) :
  precedes a b -> precedes b c -> precedes a c.
Proof. unfold precedes; intros [?|[? ?]] [?|[? ?]]; lia. Qed.

Lemma precedes_flush (a b : chunk_loop) :
  precedes a b -> length (flush a) <= length (flush b).
Proof.
  rewrite !flush_length. intros [H | [H1 H2]].
  - destruct (is_empty (current_chunk a)), (is_empty (current_chunk b));
      lia.
  - destruct (current_chunk a), (current_chunk b); simpl in *; lia.
Qed.

(** An iteration never takes the loop back. *)
Lemma chunk_step_precedes (st : chunk_loop) (sentence : str) :
  precedes st (chunk_step self st sentence).
Proof.
  unfold chunk_step.
  destruct (is_empty (strip sentence)); [apply precedes_refl|].
  destruct (_ <=? _).
  - right; simpl; rewrite length_app; split; lia.
  - unfold precedes; simpl. rewrite flush_length.
    destruct (current_chunk st); simpl; lia.
Qed.

Lemma fold_chunk_step_precedes (l : list str) (st : chunk_loop) :
  precedes st (fold_left (chunk_step self) l st).
Proof.
  revert st; induction l as [|x l IH]; intros st; simpl.
  - apply precedes_refl.
  - eapply precedes_trans; [apply chunk_step_precedes | apply IH].
Qed.

(** From the same state, a longer sentence takes the loop at least
    as far as a shorter one. *)
Lemma chunk_step_longer (st : chunk_loop) (x y : str) :
  length (strip x) <= length (strip y) ->
  precedes (chunk_step self st x) (chunk_step self st y).
Proof.
  intros Hxy.
  destruct (is_empty (strip x)) eqn:Ex.
  - replace (chunk_step self st x) with st
      by (unfold chunk_step; rewrite Ex; reflexivity).
    apply chunk_step_precedes.
  - pose proof (is_empty_length _ Ex) as Hx.
    assert (Ey : is_empty (strip y) = false)
      by (destruct (strip y); [simpl in *; lia | reflexivity]).
    unfold chunk_step. rewrite Ex, Ey.
    destruct (Nat.leb_spec
                (length (current_chunk st ++ strip y ++ py ". "))
                (max_chars self)) as [Hy|Hy];
      destruct (Nat.leb_spec
                  (length (current_chunk st ++ strip x ++ py ". "))
                  (max_chars self)) as [Hx'|Hx'];
      rewrite !length_app in *; unfold precedes; simpl;
      rewrite ?flush_length, ?length_app; simpl;
      try (destruct (current_chunk st); simpl in *; lia).
Qed.

Lemma sentences_of_app (s u : str) :
  sentences_of (s ++ u) =
  removelast (sentences_of s)
    ++ (last (sentences_of s) [] ++ hd [] (sentences_of u))
    :: tl (sentences_of u).
Proof.
  unfold sentences_of. rewrite !replace_app. apply split_on_app.
Qed.

Lemma chunk_count_append (s u : str) :
  max_chars self < length s ->
  length (_chunk_text self s) <= length (_chunk_text self (s ++ u)).
Proof.
  intros Hs. unfold _chunk_text.
  destruct (Nat.leb_spec (length s) (max_chars self)); [lia|].
  destruct (Nat.leb_spec (length (s ++ u)) (max_chars self)) as [Hle|_];
    [rewrite length_app in Hle; lia|].
  apply precedes_flush.
  rewrite sentences_of_app.
  assert (Hne : sentences_of s <> []) by apply split_on_nonempty.
  rewrite (app_removelast_last [] Hne) at 1.
  rewrite !fold_left_app. simpl.
  eapply precedes_trans; [|apply fold_chunk_step_precedes].
  apply chunk_step_longer, strip_app_length.
Qed.

(** Text with something to say has a sentence that is not blank. *)
Lemma has_sentence_sentences (text : str) :
  has_sentence text ->
  exists sentence, In sentence (sentences_of text) /\ strip sentence <> [].
Proof.
  intros (c & Hin & Hc & Hdot & Hbang & Hqm).
  destruct (split_on_covers (chr ".") c
              (replace (chr "?") (chr ".") (replace (chr "!") (chr ".") text)))
    as (piece & Hp & Hcp); [|exact Hdot|].
  - apply replace_keeps; [|exact Hqm]. apply replace_keeps; assumption.
  - exists piece. split; [exact Hp|].
    pose proof (strip_keeps _ _ Hcp Hc) as H.
    destruct (strip piece); [contradiction | discriminate].
Qed.

(** A sentence that is not blank opens the accumulator, and an open
    accumulator stays open. *)
Lemma chunk_step_open (st : chunk_loop) (sentence : str) :
  strip sentence <> [] \/ current_chunk st <> [] ->
  current_chunk (chunk_step self st sentence) <> [].
Proof.
  unfold chunk_step. destruct (strip sentence) as [|a w] eqn:Es; simpl.
  - intros [H | H]; [contradiction | exact H].
  - intros _. destruct (_ <=? _); simpl.
    + destruct (current_chunk st); discriminate.
    + discriminate.
Qed.

Lemma fold_chunk_step_open (l : list str) (st : chunk_loop) :
  (exists sentence, In sentence l /\ strip sentence <> [])
  \/ current_chunk st <> [] ->
  current_chunk (fold_left (chunk_step self) l st) <> [].
Proof.
  revert st; induction l as [|x l IH]; intros st; simpl.
  - intros [(sentence & [] & _) | H]; exact H.
  - intros [(sentence & [-> | Hin] & Hne) | H]; apply IH.
    + right. apply chunk_step_open. left; exact Hne.
    + left. exists sentence. auto.
    + right. apply chunk_step_open. right; exact H.
Qed.

Lemma chunk_text_nonempty (text : str) :
  has_sentence text -> 1 <= length (_chunk_text self text).
Proof.
  intros Hs. unfold _chunk_text.
  destruct (length text <=? max_chars self); [simpl; lia|].
  rewrite flush_length.
  pose proof (fold_chunk_step_open (sentences_of text)
                {| chunks := []; current_chunk := [] |}
                (or_introl (has_sentence_sentences _ Hs))) as Hopen.
  destruct (current_chunk _); [contradiction | simpl; lia].
Qed.

Lemma chunk_count_append_general (s u : str) :
  max_chars self < length s
  \/ length (s ++ u) <= max_chars self
  \/ has_sentence (s ++ u) ->
  length (_chunk_text self s) <= length (_chunk_text self (s ++ u)).
Proof.
  intros H.
  destruct (le_gt_dec (length s) (max_chars self)) as [Hs | Hs];
    [|apply chunk_count_append, Hs].
  assert (E : _chunk_text self s = [s])
    by (unfold _chunk_text; apply Nat.leb_le in Hs; rewrite Hs; reflexivity).
  rewrite E. simpl.
  destruct H as [H | [H | H]]; [lia | | apply chunk_text_nonempty, H].
  unfold _chunk_text. apply Nat.leb_le in H. rewrite H. simpl. lia.
Qed.

End Growth.

End ChunkerFacts.

(* ================================================================== *)
(** ** The dispatcher and the assembler *)
(* ================================================================== *)

Section PipelineFacts.
Context {client : TextToSpeechClient}.
Variables (voice_name language_code : str) (speaking_rate pitch : pyfloat).
Variable is_ssml : bool.

#[local] Abbreviation build :=
  (build_request voice_name language_code speaking_rate pitch is_ssml).
#[local] Abbreviation process :=
  (process_chunks voice_name language_code speaking_rate pitch is_ssml).

Lemma process_chunks_outcome (chunks : list str) :
  forall acc w w' r,
    process chunks acc w = (w', r) ->
    exists new, loop_outcome build chunks acc w w' r new.
Proof.
  induction chunks as [|chunk rest IH]; intros acc w w' r Hrun.
  - injection Hrun as <- <-. exists []. unfold loop_outcome; simpl.
    rewrite app_nil_r. repeat split; auto.
    exists []. rewrite app_nil_r. auto.
  - simpl in Hrun. unfold bind, call_synthesize_speech in Hrun.
    destruct (synthesize_speech (remote w) (build chunk))
      as [s' answer] eqn:Ecall.
    destruct answer as [e0 | audio_content].
    + injection Hrun as <- <-. exists [(build chunk, inl e0)].
      unfold loop_outcome; simpl. rewrite Ecall.
      repeat split; auto.
      exists [], (build chunk), e0. repeat split; auto.
    + apply IH in Hrun. destruct Hrun as (new & Hlog & Hreq & Hans & Hres).
      simpl in Hlog, Hans.
      exists ((build chunk, inr audio_content) :: new).
      unfold loop_outcome; simpl. rewrite Ecall.
      split; [rewrite Hlog, <- app_assoc; reflexivity|].
      split; [rewrite Hreq; reflexivity|].
      split; [rewrite Hans; reflexivity|].
      destruct r as [e | segments].
      * destruct Hres as (early & req & e1 & -> & -> & Hearly).
        exists ((build chunk, inr audio_content) :: early), req, e1.
        repeat split; auto. constructor; [simpl; eauto | exact Hearly].
      * destruct Hres as (answers & -> & Hsnd & Hlen).
        exists (audio_content :: answers).
        rewrite <- app_assoc. simpl. rewrite Hsnd, Hlen. auto.
Qed.

Variable self : TTSService.
Variable text : str.

#[local] Abbreviation chunks := (_chunk_text self (_clean_text text)).
#[local] Abbreviation run :=
  (text_to_speech self text voice_name language_code speaking_rate pitch
                  is_ssml).

(** Blank text is refused before anything else happens. *)
Lemma blank_text_rejected (w : world) :
  is_empty (strip text) = true ->
  run w = (w, inl (ValueError "Text cannot be empty")).
Proof.
  intros Hblank. unfold run, text_to_speech, try_reraise.
  rewrite Hblank. reflexivity.
Qed.

(** Any other text is cleaned, chunked and dispatched. *)
Lemma text_to_speech_outcome (w w' : world) (r : exn + bytes) :
  is_empty (strip text) = false ->
  run w = (w', r) ->
  exists new segments_or_error,
    loop_outcome build chunks [] w w' segments_or_error new
    /\ r = match segments_or_error with
           | inl e => inl e
           | inr segments => inr (concat segments)
           end.
Proof.
  intros Hne. unfold run, text_to_speech, try_reraise, bind.
  rewrite Hne.
  destruct (process chunks [] w) as [w1 r1] eqn:Eloop.
  apply process_chunks_outcome in Eloop. destruct Eloop as (new & Hout).
  destruct r1 as [e | segments]; simpl; intros E; injection E as <- <-;
    exists new; eexists; (split; [exact Hout | reflexivity]).
Qed.

End PipelineFacts.

(* ================================================================== *)
(** ** Properties of the chunker *)
(* ================================================================== *)

(** C6: text no longer than the configured limit comes back as exactly
    one chunk, and that chunk is the text itself: nothing is split,
    rewritten or stripped. *)
Theorem short_text_single_chunk (self : TTSService) (text : str) :
  length text <= max_chars self ->
  _chunk_text self text = [text].
Proof.
  intros Hle. unfold _chunk_text.
  apply Nat.leb_le in Hle. rewrite Hle. reflexivity.
Qed.

Lemma short_text_single_chunk_witness :
  length (py "Wait!  Is this one chunk? ") <= max_chars TTSService_init
  /\ _chunk_text TTSService_init (py "Wait!  Is this one chunk? ")
     = [py "Wait!  Is this one chunk? "].
Proof.
  assert (H : length (py "Wait!  Is this one chunk? ")
              <= max_chars TTSService_init)
    by (apply Nat.leb_le; vm_compute; reflexivity).
  split; [exact H | apply (short_text_single_chunk _ _ H)].
Defined.

(** A chunk beyond the limit: 10,000 letters and a period make a chunk
    of 10,001 characters under the limit of 10,000. *)
Lemma long_sentence_not_cut :
  _chunk_text TTSService_init (repeat (chr "a") 10000 ++ py ". Next one.")
  = [repeat (chr "a") 10000 ++ py "."; py "Next one."].
Proof.
  apply (list_eqb_eq str_eqb str_eqb_eq). vm_compute. reflexivity.
Qed.

(** C10: when the text is longer than the limit, every chunk is
    non-empty, has no whitespace at either end, ends with a period and
    holds neither [!] nor [?]. *)
Theorem split_chunks_well_formed (self : TTSService) (text : str) :
  max_chars self < length text ->
  Forall (fun c =>
            c <> [] /\ no_outer_whitespace c /\ ends_with_period c
            /\ free_of_marks c)
         (_chunk_text self text).
Proof.
  intros Hgt. eapply Forall_impl; [|apply chunk_text_shaped, Hgt].
  intros c (a & w & -> & Ha & Hw1 & Hw2).
  split; [discriminate|]. split; [|split; [|split]].
  - split.
    + intros a' r E. simpl in E. injection E as <- _. exact Ha.
    + intros r a' E. change (py ".") with [chr "."] in E.
      apply app_inj_tail in E. destruct E as [_ <-]. reflexivity.
  - exists (a :: w). reflexivity.
  - rewrite in_app_iff. intros [H | [H | []]]; [tauto | discriminate].
  - rewrite in_app_iff. intros [H | [H | []]]; [tauto | discriminate].
Qed.

Lemma split_chunks_well_formed_witness :
  max_chars TTSService_init < length short_sentences
  /\ Forall (fun c =>
               c <> [] /\ no_outer_whitespace c /\ ends_with_period c
               /\ free_of_marks c)
            (_chunk_text TTSService_init short_sentences).
Proof.
  assert (H : max_chars TTSService_init < length short_sentences)
    by (apply Nat.ltb_lt; vm_compute; reflexivity).
  split; [exact H | apply (split_chunks_well_formed _ _ H)].
Defined.

(** C8, as stated, fails: two sentences of 6,000 letters (12,003
    characters) make two chunks, 20,000 letters without a terminator
    make one. *)
Lemma chunk_count_not_monotone_in_length :
  ~ (forall s t : str,
        length s <= length t ->
        length (_chunk_text TTSService_init s)
        <= length (_chunk_text TTSService_init t)).
Proof.
  intros H. specialize (H two_long_sentences one_long_word).
  assert (Hlen : length two_long_sentences <= length one_long_word)
    by (apply Nat.leb_le; vm_compute; reflexivity).
  apply H in Hlen. apply Nat.leb_le in Hlen.
  vm_compute in Hlen. discriminate.
Qed.

(** Both texts are as the normalizer leaves them. *)
Lemma long_texts_normalized :
  _clean_text two_long_sentences = two_long_sentences
  /\ _clean_text one_long_word = one_long_word.
Proof. split; apply str_eqb_eq; vm_compute; reflexivity. Qed.

(** Nor does the count grow from a text within the limit to one beyond
    it: a single period is one chunk, 10,001 periods are none. *)
Lemma chunk_count_can_drop_to_zero :
  _chunk_text TTSService_init (py ".") = [py "."]
  /\ _chunk_text TTSService_init (py "." ++ repeat (chr ".") 10000) = [].
Proof.
  split; apply (list_eqb_eq str_eqb str_eqb_eq); vm_compute; reflexivity.
Qed.

(** C8, amended: appending text never lowers the number of chunks,
    as long as the text was already longer than the limit, or the
    longer text is still within it, or the longer text has something
    to say (a character that is neither whitespace nor a terminator). *)
Theorem chunk_count_grows_with_appended_text
        (self : TTSService) (s u : str) :
  max_chars self < length s
  \/ length (s ++ u) <= max_chars self
  \/ has_sentence (s ++ u) ->
  length (_chunk_text self s) <= length (_chunk_text self (s ++ u)).
Proof. apply chunk_count_append_general. Qed.

Lemma chunk_count_grows_with_appended_text_witness :
  max_chars TTSService_init < length short_sentences
  /\ length (_chunk_text TTSService_init short_sentences)
     <= length (_chunk_text TTSService_init
                            (short_sentences ++ py "One more sentence.")).
Proof.
  assert (H : max_chars TTSService_init < length short_sentences)
    by (apply Nat.ltb_lt; vm_compute; reflexivity).
  split; [exact H|].
  apply (chunk_count_grows_with_appended_text _ _ _ (or_introl H)).
Defined.

(* ================================================================== *)
(** ** Properties of [text_to_speech] *)
(* ================================================================== *)

Section Claims.
Context {client : TextToSpeechClient}.
Variables (self : TTSService) (text voice_name language_code : str).
Variables (speaking_rate pitch : pyfloat) (is_ssml : bool).

#[local] Abbreviation build :=
  (build_request voice_name language_code speaking_rate pitch is_ssml).
#[local] Abbreviation chunks := (_chunk_text self (_clean_text text)).
#[local] Abbreviation run :=
  (text_to_speech self text voice_name language_code speaking_rate pitch
                  is_ssml).

(** The input built for a chunk. *)
Lemma synthesis_input_markup (chunk : str) :
  content (input (build chunk)) = chunk
  /\ (is_markup (input (build chunk)) = true
      <-> is_ssml = true /\ startswith (py "<?xml") (strip chunk) = true).
Proof.
  unfold build_request, synthesis_input. cbn [input].
  destruct is_ssml; destruct (startswith (py "<?xml") (strip chunk));
    cbn [andb content is_markup]; split; try reflexivity;
    split; try tauto; try discriminate; intros [? ?]; discriminate.
Qed.

(** Every run, returning or raising, leaves a log of this form. *)
Lemma text_to_speech_log (w w' : world) (r : exn + bytes) :
  run w = (w', r) ->
  exists new,
    call_log w' = call_log w ++ new
    /\ map fst new = map build (firstn (length new) chunks).
Proof.
  intros Hrun. destruct (is_empty (strip text)) eqn:Hblank.
  - rewrite (blank_text_rejected _ _ _ _ _ _ _ _ Hblank) in Hrun.
    injection Hrun as <- _. exists []. rewrite app_nil_r. auto.
  - destruct (text_to_speech_outcome _ _ _ _ _ _ _ _ _ _ Hblank Hrun)
      as (new & sr & (Hlog & Hreq & _) & _).
    exists new. auto.
Qed.

(** C2: when a call to the remote engine fails, [text_to_speech] raises
    that very error and returns no audio. The failed call is the last
    one made: the calls before it all answered and their segments are
    not returned, and the calls made are for distinct chunks in chunk
    order, so nothing is tried twice. *)
Theorem remote_failure_aborts_request
        (w w' : world) (r : exn + bytes)
        (new : list (SynthesisRequest * (client_error + bytes)))
        (req : SynthesisRequest) (e : client_error) :
  run w = (w', r) ->
  call_log w' = call_log w ++ new ->
  In (req, inl e) new ->
  r = inl (RemoteError e)
  /\ (exists early,
         new = early ++ [(req, inl e)]
         /\ Forall (fun en => exists audio, snd en = inr audio) early)
  /\ map fst new = map build (firstn (length new) chunks)
  /\ length new <= length chunks.
Proof.
  intros Hrun Hlog Hin.
  destruct (is_empty (strip text)) eqn:Hblank.
  - rewrite (blank_text_rejected _ _ _ _ _ _ _ _ Hblank) in Hrun.
    injection Hrun as <- _.
    rewrite <- (app_nil_r (call_log w)) in Hlog at 1.
    apply app_inv_head in Hlog. subst new. destruct Hin.
  - destruct (text_to_speech_outcome _ _ _ _ _ _ _ _ _ _ Hblank Hrun)
      as (new' & sr & (Hlog' & Hreq & _ & Hres) & ->).
    rewrite Hlog in Hlog'. apply app_inv_head in Hlog'. subst new'.
    assert (Hlen : length new <= length chunks).
    { pose proof (f_equal (@length _) Hreq) as L.
      rewrite !length_map, length_firstn in L. lia. }
    destruct sr as [e' | segments].
    + destruct Hres as (early & req0 & e0 & -> & -> & Hearly).
      apply in_app_or in Hin. destruct Hin as [Hin | [Hin | []]].
      * rewrite Forall_forall in Hearly.
        destruct (Hearly _ Hin) as [audio Ha]. discriminate.
      * injection Hin as <- <-. repeat split; auto. exists early. auto.
    + destruct Hres as (answers & _ & Hsnd & _).
      apply (in_map snd) in Hin. rewrite Hsnd in Hin. simpl in Hin.
      apply in_map_iff in Hin. destruct Hin as (a & Ha & _). discriminate.
Qed.

(** C4: a run that returns has made one call per chunk, in chunk order;
    what it returns is the answers to those calls joined in that order,
    byte for byte, so its length is the sum of their lengths. *)
Theorem result_is_segments_in_chunk_order
        (w w' : world) (audio : bytes) :
  run w = (w', inr audio) ->
  exists segments : list bytes,
    length segments = length chunks
    /\ call_log w' = call_log w ++ combine (map build chunks) (map inr segments)
    /\ answers_from (remote w) (map build chunks) = map inr segments
    /\ audio = concat segments
    /\ length audio = list_sum (map (@length _) segments).
Proof.
  intros Hrun.
  destruct (is_empty (strip text)) eqn:Hblank.
  - rewrite (blank_text_rejected _ _ _ _ _ _ _ _ Hblank) in Hrun.
    discriminate.
  - destruct (text_to_speech_outcome _ _ _ _ _ _ _ _ _ _ Hblank Hrun)
      as (new & sr & (Hlog & Hreq & Hans & Hres) & E).
    destruct sr as [e | segments]; [discriminate|].
    injection E as ->.
    destruct Hres as (answers & E & Hsnd & Hlen). simpl in E. subst answers.
    rewrite Hlen, firstn_all in Hreq.
    exists segments. split; [|split; [|split; [|split]]].
    + rewrite <- Hlen, <- (length_map snd), Hsnd, length_map. reflexivity.
    + rewrite Hlog, <- Hreq, <- Hsnd. f_equal.
      clear. induction new as [|[a b] l IH]; simpl; [|rewrite <- IH];
        reflexivity.
    + rewrite <- Hreq, <- Hans. exact Hsnd.
    + reflexivity.
    + apply length_concat.
Qed.

(** C9: each call carries its chunk unchanged, and carries it as
    markup exactly when the request was flagged as markup and the
    chunk, once stripped, begins with [<?xml]; otherwise the chunk goes
    as plain text. *)
Theorem markup_iff_flag_and_prolog (w w' : world) (r : exn + bytes) :
  run w = (w', r) ->
  exists new,
    call_log w' = call_log w ++ new
    /\ Forall2 (fun chunk en =>
                  content (input (fst en)) = chunk
                  /\ (is_markup (input (fst en)) = true
                      <-> is_ssml = true
                          /\ startswith (py "<?xml") (strip chunk) = true))
               (firstn (length new) chunks) new.
Proof.
  intros Hrun. destruct (text_to_speech_log _ _ _ Hrun) as (new & Hlog & Hreq).
  exists new. split; [exact Hlog|]. clear Hlog Hrun.
  revert Hreq. generalize (firstn (length new) chunks) as cs.
  induction new as [|en new IH]; intros [|c cs] Hreq; simpl in Hreq;
    try discriminate; constructor.
  - injection Hreq as -> _. apply synthesis_input_markup.
  - apply IH. injection Hreq as _ Hreq. exact Hreq.
Qed.

End Claims.

Lemma remote_failure_aborts_request_witness :
  let c := mock_client [0] in
  let w := fresh_world c 0 in
  let out :=
    text_to_speech (client := c) TTSService_init (py "Hello world.")
                   voice_D en_US one zero false w in
  let req := build_request voice_D en_US one zero false (py "Hello world.") in
  In (req, inl "transport error"%string) (call_log (fst out))
  /\ snd out = inl (RemoteError (client := c) "transport error"%string).
Proof.
  intros c w out req.
  assert (Hin : In (req, inl "transport error"%string) (call_log (fst out)))
    by (left; vm_compute; reflexivity).
  split; [exact Hin|].
  apply (remote_failure_aborts_request (client := c)
           TTSService_init (py "Hello world.") voice_D en_US one zero false
           w (fst out) (snd out) (call_log (fst out)) req
           "transport error"%string).
  - apply surjective_pairing.
  - reflexivity.
  - exact Hin.
Defined.

Lemma result_is_segments_in_chunk_order_witness :
  let c := mock_client [] in
  exists segments : list bytes,
    length segments
    = length (_chunk_text TTSService_init (_clean_text (py "Hello world.")))
    /\ repeat Byte.x00 10 = concat segments.
Proof.
  intros c.
  pose (out := text_to_speech (client := c) TTSService_init
                 (py "Hello world.") voice_D en_US one zero false
                 (fresh_world c 0)).
  destruct (result_is_segments_in_chunk_order (client := c)
              TTSService_init (py "Hello world.") voice_D en_US one zero false
              (fresh_world c 0) (fst out) (repeat Byte.x00 10))
    as (segments & Hlen & _ & _ & Hcat & _).
  - change (out = (fst out, inr (repeat Byte.x00 10))).
    rewrite (surjective_pairing out) at 1. f_equal.
  - exists segments. split; [exact Hlen | exact Hcat].
Defined.

Lemma markup_iff_flag_and_prolog_witness :
  let c := mock_client [] in
  let w := fresh_world c 0 in
  let out :=
    text_to_speech (client := c) TTSService_init (py "<?xml plain")
                   voice_D en_US one zero true w in
  exists new,
    call_log (fst out) = call_log w ++ new
    /\ Forall2 (fun chunk en =>
                  content (input (fst en)) = chunk
                  /\ (is_markup (input (fst en)) = true
                      <-> true = true
                          /\ startswith (py "<?xml") (strip chunk) = true))
               (firstn (length new)
                       (_chunk_text TTSService_init
                                    (_clean_text (py "<?xml plain"))))
               new.
Proof.
  intros c w out.
  apply (markup_iff_flag_and_prolog (client := c)
           TTSService_init (py "<?xml plain") voice_D en_US one zero true
           w (fst out) (snd out)).
  apply surjective_pairing.
Defined.

(** The scenario of 25,000 characters of short sentences: three chunks
    within the limit, three calls, three segments joined in order. *)
Lemma scenario_three_chunks :
  let c := mock_client [] in
  let out :=
    text_to_speech (client := c) TTSService_init short_sentences
                   voice_D en_US one zero false (fresh_world c 0) in
  map (fun chunk => N.of_nat (length chunk))
      (_chunk_text TTSService_init (_clean_text short_sentences))
  = [9996; 9996; 5017]%N
  /\ length (call_log (fst out)) = 3
  /\ snd out = inr (repeat Byte.x00 10 ++ repeat Byte.x01 10
                           ++ repeat Byte.x02 10).
Proof. vm_compute. repeat split. Qed.

(** The same request when the call for the second chunk fails: two
    calls, the error of the second, no audio. *)
Lemma scenario_second_call_fails :
  let c := mock_client [1] in
  let out :=
    text_to_speech (client := c) TTSService_init short_sentences
                   voice_D en_US one zero false (fresh_world c 0) in
  length (call_log (fst out)) = 2
  /\ snd out = inl (RemoteError (client := c) "transport error"%string).
Proof. vm_compute. repeat split. Qed.

(* ================================================================== *)
(** ** The request boundary *)
(* ================================================================== *)

Section Boundary.
Context {client : TextToSpeechClient}.

(** The declared constraint accepts exactly the values of the range. *)
Lemma in_range_outside (lo hi : Q) (v : pyfloat) :
  Api.in_range (Finite lo) (Finite hi) v = false <-> outside lo hi v.
Proof.
  unfold Api.in_range. destruct v as [q | [|] | ]; simpl;
    try (split; [intros _; exact I | reflexivity]).
  rewrite andb_false_iff. split.
  - intros [H | H]; [left | right]; apply Qnot_le_lt; intros Hle;
      apply Qle_bool_iff in Hle; congruence.
  - intros [H | H]; [left | right]; apply not_true_is_false; intros Hle;
      apply Qle_bool_iff in Hle; apply Qlt_not_le in H; contradiction.
Qed.

Lemma in_range_inside (lo hi : Q) (v : pyfloat) :
  Api.in_range (Finite lo) (Finite hi) v = true -> ~ outside lo hi v.
Proof.
  intros Hin Hout. apply in_range_outside in Hout. congruence.
Qed.

(** What the model lets through. *)
Lemma parse_accepts (b : Api.body) (request : Api.TextToSpeechRequest) :
  Api.parse b = Some request ->
  Api.speaking_rate request = Api.default one (Api.body_speaking_rate b)
  /\ Api.pitch request = Api.default zero (Api.body_pitch b)
  /\ Api.rate_ok (Api.speaking_rate request) = true
  /\ Api.pitch_ok (Api.pitch request) = true.
Proof.
  unfold Api.parse. destruct (Api.body_text b) as [t|]; [|discriminate].
  fold one zero.
  destruct (_ && Api.rate_ok _ && Api.pitch_ok _) eqn:Hok; [|discriminate].
  intros E; injection E as <-. simpl.
  apply andb_prop in Hok. destruct Hok as [Hok Hp].
  apply andb_prop in Hok. destruct Hok as [_ Hr]. auto.
Qed.

(** C7: a request whose speaking rate is outside [0.25, 4.0], or whose
    pitch is outside [-20.0, 20.0], is answered with a validation
    error and leaves the engine and its call log as they were; and
    whatever the request, no call reaches the engine with a rate or a
    pitch outside these ranges. *)
Theorem out_of_range_rejected_at_boundary
        (tts : TTSService) (b : Api.body) (w : world) :
  (forall v,
      (Api.body_speaking_rate b = Some v /\ outside (1 # 4) (4 # 1) v)
      \/ (Api.body_pitch b = Some v /\ outside (- (20 # 1)) (20 # 1) v) ->
      Api.generate_audio tts b w = (w, Api.RequestValidationError))
  /\ (forall w' resp new,
         Api.generate_audio tts b w = (w', resp) ->
         call_log w' = call_log w ++ new ->
         Forall (fun en =>
                   ~ outside (1 # 4) (4 # 1)
                       (speaking_rate (audio_config (fst en)))
                   /\ ~ outside (- (20 # 1)) (20 # 1)
                         (pitch (audio_config (fst en))))
                new).
Proof.
  split.
  - intros v Hv. unfold Api.generate_audio.
    destruct (Api.parse b) as [request|] eqn:Hparse; [|reflexivity].
    exfalso. destruct (parse_accepts _ _ Hparse) as (Er & Ep & Hr & Hp).
    destruct Hv as [[Ev Hout] | [Ev Hout]]; apply in_range_outside in Hout.
    + rewrite Er, Ev in Hr. unfold Api.rate_ok in Hr. simpl in Hr.
      congruence.
    + rewrite Ep, Ev in Hp. unfold Api.pitch_ok in Hp. simpl in Hp.
      congruence.
  - intros w' resp new. unfold Api.generate_audio.
    destruct (Api.parse b) as [request|] eqn:Hparse.
    + destruct (parse_accepts _ _ Hparse) as (_ & _ & Hr & Hp).
      destruct (text_to_speech _ _ _ _ _ _ _ w) as [w1 r] eqn:Hrun.
      intros Hresp Hlog.
      assert (w1 = w') as ->
          by (destruct r as [[msg|e]|audio]; congruence).
      destruct (text_to_speech_log _ _ _ _ _ _ _ _ _ _ Hrun)
        as (new' & Hlog' & Hreq).
      rewrite Hlog in Hlog'. apply app_inv_head in Hlog'. subst new'.
      apply Forall_forall. intros en Hen.
      apply (in_map fst) in Hen. rewrite Hreq in Hen.
      apply in_map_iff in Hen. destruct Hen as (chunk & <- & _). simpl.
      split; apply in_range_inside; assumption.
    + intros E Hlog. injection E as <- _.
      rewrite <- (app_nil_r (call_log w)) in Hlog at 1.
      apply app_inv_head in Hlog. subst new. constructor.
Qed.

End Boundary.

Lemma out_of_range_rejected_at_boundary_witness :
  let c := mock_client [] in
  let b := {| Api.body_text := Some (py "Hello world.");
              Api.body_voice_name := None;
              Api.body_language_code := None;
              Api.body_speaking_rate := Some (Finite (5 # 1));
              Api.body_pitch := None |} in
  outside (1 # 4) (4 # 1) (Finite (5 # 1))
  /\ Api.generate_audio (client := c) TTSService_init b (fresh_world c 0)
     = (fresh_world c 0, Api.RequestValidationError).
Proof.
  intros c b.
  assert (Hout : outside (1 # 4) (4 # 1) (Finite (5 # 1)))
    by (right; reflexivity).
  split; [exact Hout|].
  apply (proj1 (out_of_range_rejected_at_boundary (client := c)
                  TTSService_init b (fresh_world c 0))
               (Finite (5 # 1))).
  left. split; [reflexivity | exact Hout].
Defined.

(** A request within the ranges goes through, with its rate and pitch. *)
Lemma in_range_request_accepted :
  let c := mock_client [] in
  let b := {| Api.body_text := Some (py "Hello world.");
              Api.body_voice_name := None;
              Api.body_language_code := None;
              Api.body_speaking_rate := Some (Finite (4 # 1));
              Api.body_pitch := Some (Finite (- (20 # 1))) |} in
  snd (Api.generate_audio (client := c) TTSService_init b (fresh_world c 0))
  = Api.StreamingResponse (repeat Byte.x00 10).
Proof. vm_compute. reflexivity. Qed.

(* ================================================================== *)
(** ** Where the code departs from its description *)
(* ================================================================== *)

(** C1 (the code does otherwise): the text is cleaned whatever the
    markup flag says. A document flagged as markup loses all its tags
    before it is chunked, and what is left goes to the engine as plain
    text, with the two spaces the removed tag stood between. *)
Theorem markup_flagged_text_is_stripped :
  let c := mock_client [] in
  let out :=
    text_to_speech (client := c) TTSService_init ssml_document
                   voice_D en_US one zero true (fresh_world c 0) in
  _clean_text ssml_document = py "Hello  world"
  /\ _chunk_text TTSService_init (_clean_text ssml_document)
     = [py "Hello  world"]
  /\ map (fun en => input (fst en)) (call_log (fst out))
     = [Text (py "Hello  world")].
Proof. vm_compute. repeat split. Qed.

(** On plain text too, removing a tag can leave a run of spaces. *)
Lemma clean_text_leaves_double_space :
  _clean_text (py "one <b> two") = py "one  two".
Proof. vm_compute. reflexivity. Qed.

(** C3 (the code does otherwise): text made of tags alone passes the
    emptiness check, which looks at the text before it is cleaned; the
    cleaned text is empty, and the engine is called with it. *)
Theorem tag_only_text_reaches_engine :
  let c := mock_client [] in
  let out :=
    text_to_speech (client := c) TTSService_init (py "<br/>")
                   voice_D en_US one zero false (fresh_world c 0) in
  _clean_text (py "<br/>") = []
  /\ map (fun en => input (fst en)) (call_log (fst out)) = [Text []]
  /\ snd out = inr (repeat Byte.x00 10).
Proof. vm_compute. repeat split. Qed.

(** The part of C3 the code does meet: empty and whitespace-only text
    raises [ValueError] and no call is made. *)
Lemma whitespace_only_text_rejected
      {client : TextToSpeechClient} (self : TTSService)
      (text voice_name language_code : str) (speaking_rate pitch : pyfloat)
      (is_ssml : bool) (w : world) :
  Forall (fun c => isspace c = true) text ->
  text_to_speech self text voice_name language_code speaking_rate pitch
                 is_ssml w
  = (w, inl (ValueError "Text cannot be empty")).
Proof.
  intros Hws. apply blank_text_rejected.
  assert (lstrip text = []) as E
      by (induction Hws as [|c l Hc _ IH]; simpl; [|rewrite Hc]; auto).
  unfold strip. rewrite E. reflexivity.
Qed.

(* ================================================================== *)
(** ** More about the normalizer *)
(* ================================================================== *)

Section CleanFacts.

(** *** The words of a text *)

Lemma split_ws_words (s : str) :
  Forall (fun word => word <> [] /\ Forall (fun c => isspace c = false) word)
         (split_ws s).
Proof.
  induction s as [|c rest IH]; simpl; [constructor|].
  destruct (isspace c) eqn:Hc; [exact IH|].
  destruct rest as [|d rest']; [repeat constructor; [discriminate|exact Hc]|].
  destruct (isspace d) eqn:Hd.
  - constructor; [|exact IH].
    split; [discriminate | repeat constructor; exact Hc].
  - destruct (split_ws (d :: rest')) as [|word words].
    + repeat constructor; [discriminate | exact Hc].
    + inversion IH as [|? ? [_ Hw] Hws]; subst.
      constructor; [|exact Hws].
      split; [discriminate | constructor; assumption].
Qed.

Lemma join_In (sep : str) (parts : list str) (c : char) :
  In c (join sep parts) ->
  In c sep \/ exists p, In p parts /\ In c p.
Proof.
  induction parts as [|p [|q ps] IH]; simpl; [contradiction| |].
  - intros H. right. exists p. auto.
  - rewrite !in_app_iff. intros [H | [H | H]].
    + right. exists p. auto.
    + left. exact H.
    + destruct (IH H) as [Hs | (p' & Hp' & Hc)]; [left; exact Hs|].
      right. exists p'. auto.
Qed.

Lemma join_cons_length (sep : str) (c : char) (w : str) (ws : list str) :
  length (join sep ((c :: w) :: ws)) = S (length (join sep (w :: ws))).
Proof. destruct ws; reflexivity. Qed.

(** Joining the words with single spaces never makes the text longer,
    and makes it shorter when it begins with whitespace. *)
Lemma join_split_ws_length_strong (s : str) :
  length (join (py " ") (split_ws s)) <= length s
  /\ match s with
     | d :: _ =>
         isspace d = true ->
         length (join (py " ") (split_ws s)) + 1 <= length s
     | [] => True
     end.
Proof.
  induction s as [|c rest [IH1 IH2]]; [simpl; split; [lia | exact I]|].
  cbn [split_ws]. destruct (isspace c) eqn:Hc.
  - simpl length. split; [|intros _]; lia.
  - split; [|discriminate].
    destruct rest as [|d rest']; [simpl; lia|].
    destruct (isspace d) eqn:Hd.
    + specialize (IH2 eq_refl).
      destruct (split_ws (d :: rest')) as [|word words].
      * simpl in *. lia.
      * change (join (py " ") ([c] :: word :: words))
          with ([c] ++ py " " ++ join (py " ") (word :: words)).
        rewrite !length_app. simpl length in *. lia.
    + destruct (split_ws (d :: rest')) as [|word words]; [simpl; lia|].
      rewrite join_cons_length. simpl length in *. lia.
Qed.

Lemma join_split_ws_length (s : str) :
  length (join (py " ") (split_ws s)) <= length s.
Proof. apply join_split_ws_length_strong. Qed.

(** *** Removing the tags *)

Lemma sub_tags_from_skipn (s : str) :
  forall k, sub_tags_from k s = sub_tags_from 0 (skipn k s).
Proof.
  induction s as [|c rest IH]; intros [|k]; try reflexivity.
  simpl skipn. rewrite <- IH. reflexivity.
Qed.

Lemma sub_tags_from_In (s : str) (c : char) :
  forall k, In c (sub_tags_from k s) -> In c s.
Proof.
  induction s as [|a rest IH]; intros k; [simpl; tauto|].
  destruct k as [|k].
  - cbn [sub_tags_from]. destruct (match_tag (a :: rest)).
    + intros H. right. exact (IH _ H).
    + intros [-> | H]; [left; reflexivity | right; exact (IH _ H)].
  - cbn [sub_tags_from]. intros H. right. exact (IH _ H).
Qed.

Lemma sub_tags_from_length (s : str) :
  forall k, length (sub_tags_from k s) <= length s.
Proof.
  induction s as [|a rest IH]; intros k; [simpl; lia|].
  destruct k as [|k]; cbn [sub_tags_from].
  - destruct (match_tag (a :: rest)); simpl;
      [specialize (IH (n - 1)) | specialize (IH 0)]; lia.
  - specialize (IH k). simpl. lia.
Qed.

(** The body the pattern can take: it holds no [>], and what follows
    it is the end of the text or a [>]. *)
Lemma tag_body_spec (s : str) :
  ~ In (chr ">") (tag_body s)
  /\ (skipn (length (tag_body s)) s = []
      \/ exists r, skipn (length (tag_body s)) s = chr ">" :: r).
Proof.
  induction s as [|c rest [IH1 IH2]]; [simpl; tauto|].
  cbn [tag_body]. destruct (N.eqb_spec c (chr ">")) as [-> | Hc].
  - split; [simpl; tauto | right; exists rest; reflexivity].
  - split; [intros [H | H]; [congruence | tauto] | exact IH2].
Qed.

Lemma tag_body_all (s : str) : ~ In (chr ">") s -> tag_body s = s.
Proof.
  induction s as [|c rest IH]; [reflexivity|]. intros H.
  cbn [tag_body]. destruct (N.eqb_spec c (chr ">")) as [-> | Hc].
  - exfalso. apply H. left. reflexivity.
  - rewrite IH; [reflexivity|]. intros Hin. apply H. right. exact Hin.
Qed.

Lemma tag_body_no_close (s : str) :
  skipn (length (tag_body s)) s = [] -> ~ In (chr ">") s.
Proof.
  induction s as [|c rest IH]; [simpl; tauto|].
  cbn [tag_body]. destruct (N.eqb_spec c (chr ">")) as [-> | Hc];
    [discriminate|].
  intros H [E | Hin]; [congruence | exact (IH H Hin)].
Qed.

(** A [<] that opens no tag in a text opens none in what is left of
    the text once its tags are removed. *)
Lemma match_tag_after_sub (c : char) (rest : str) :
  match_tag (c :: rest) = None ->
  match_tag (c :: sub_tags_from 0 rest) = None.
Proof.
  unfold match_tag. destruct (c =? chr "<")%N; [|reflexivity].
  destruct (tag_body rest) as [|b body] eqn:Eb.
  - intros _. destruct rest as [|d rest']; [reflexivity|].
    cbn [tag_body] in Eb.
    destruct (N.eqb_spec d (chr ">")) as [-> | Hd]; [|discriminate].
    reflexivity.
  - destruct (skipn (length (b :: body)) rest) eqn:Es; [|discriminate].
    intros _. rewrite <- Eb in Es. apply tag_body_no_close in Es.
    assert (Hout : ~ In (chr ">") (sub_tags_from 0 rest))
      by (intros H; apply Es; exact (sub_tags_from_In _ _ _ H)).
    rewrite (tag_body_all _ Hout).
    destruct (sub_tags_from 0 rest) as [|x l]; [reflexivity|].
    rewrite skipn_all. reflexivity.
Qed.

Lemma sub_tags_tagless_bounded (n : nat) :
  forall s, length s <= n -> tagless (sub_tags_from 0 s).
Proof.
  induction n as [|n IH]; intros [|c rest] Hlen; simpl in Hlen; try lia;
    try (intros pre post E; simpl in E;
         destruct pre; destruct post; try discriminate; reflexivity).
  cbn [sub_tags_from]. destruct (match_tag (c :: rest)) as [m|] eqn:Em.
  - rewrite sub_tags_from_skipn. apply IH.
    pose proof (length_skipn (m - 1) rest). lia.
  - intros [|a pre] post E; simpl in E.
    + subst post. apply match_tag_after_sub, Em.
    + injection E as _ E. assert (Hr : length rest <= n) by lia.
      exact (IH rest Hr pre post E).
Qed.

Lemma sub_tags_tagless (s : str) : tagless (sub_tags s).
Proof. exact (sub_tags_tagless_bounded (length s) s (le_n _)). Qed.

(** A match does not depend on what comes after it. *)
Lemma tag_body_app (s z r : str) :
  skipn (length (tag_body s)) s = chr ">" :: r ->
  tag_body (s ++ z) = tag_body s
  /\ skipn (length (tag_body s)) (s ++ z) = chr ">" :: r ++ z.
Proof.
  induction s as [|c rest IH]; [discriminate|].
  cbn [tag_body app]. destruct (N.eqb_spec c (chr ">")) as [-> | Hc].
  - intros E; injection E as <-. auto.
  - cbn [length skipn]. intros E. destruct (IH E) as [-> ->]. auto.
Qed.

Lemma match_tag_app (s z : str) (n : nat) :
  match_tag s = Some n -> match_tag (s ++ z) = Some n.
Proof.
  destruct s as [|c rest]; [discriminate|]. simpl app. unfold match_tag.
  destruct (c =? chr "<")%N; [|discriminate].
  destruct (tag_body rest) as [|b body] eqn:Eb; [discriminate|].
  destruct (skipn (length (b :: body)) rest) as [|d r] eqn:Es;
    [discriminate|].
  intros E. rewrite <- Eb in Es.
  destruct (tag_body_spec rest) as [_ [H | (r' & H)]];
    rewrite Es in H; [discriminate|]. injection H as -> ->.
  destruct (tag_body_app rest z r' Es) as [Eb' Es'].
  rewrite Eb', Eb in *. rewrite Es'. exact E.
Qed.

Lemma lstrip_suffix (s : str) : exists ws, s = ws ++ lstrip s.
Proof.
  induction s as [|c rest [ws IH]]; simpl; [exists []; reflexivity|].
  destruct (isspace c); [|exists []; reflexivity].
  exists (c :: ws). simpl. f_equal. exact IH.
Qed.

Lemma rstrip_prefix (s : str) : exists ws, s = rstrip s ++ ws.
Proof.
  induction s as [|c rest [ws IH]]; simpl; [exists []; reflexivity|].
  destruct (rstrip rest) as [|k kept].
  - destruct (isspace c); [exists (c :: rest) | exists rest]; reflexivity.
  - exists ws. simpl in *. f_equal. exact IH.
Qed.

Lemma strip_tagless (s : str) : tagless s -> tagless (strip s).
Proof.
  intros Hs pre post E. unfold strip in E.
  destruct (lstrip_suffix s) as [lead Hl].
  destruct (rstrip_prefix (lstrip s)) as [trail Hr].
  destruct (match_tag post) as [n|] eqn:Em; [|reflexivity].
  apply (match_tag_app _ trail) in Em.
  rewrite <- (Hs (lead ++ pre) (post ++ trail)); [symmetry; exact Em|].
  rewrite Hl at 1. rewrite Hr at 1. rewrite E, <- !app_assoc. reflexivity.
Qed.

End CleanFacts.

(** X1: the cleaned text neither begins nor ends with whitespace. *)
Theorem clean_text_no_outer_whitespace (text : str) :
  no_outer_whitespace (_clean_text text).
Proof.
  unfold _clean_text. split.
  - intros a r E. exact (strip_head _ _ _ E).
  - intros r a E. exact (strip_last _ _ _ E).
Qed.

(** X2: the cleaned text holds no tag: the pattern [<[^>]+>] matches at
    none of its positions. *)
Theorem clean_text_tagless (text : str) : tagless (_clean_text text).
Proof. unfold _clean_text. apply strip_tagless, sub_tags_tagless. Qed.

(** X3: whatever whitespace the text held (tabs, line breaks, no-break
    spaces), the only whitespace in the cleaned text is the plain
    space. *)
Theorem clean_text_only_plain_spaces (text : str) :
  only_plain_spaces (_clean_text text).
Proof.
  intros c Hin Hc. unfold _clean_text in Hin.
  apply strip_In in Hin. apply sub_tags_from_In in Hin.
  apply replace_In in Hin. destruct Hin as [-> | [_ Hin]]; [reflexivity|].
  apply replace_In in Hin. destruct Hin as [-> | [_ Hin]]; [reflexivity|].
  apply replace_In in Hin. destruct Hin as [-> | [_ Hin]]; [reflexivity|].
  apply join_In in Hin. destruct Hin as [[<- | []] | (word & Hw & Hcw)];
    [reflexivity|].
  pose proof (split_ws_words text) as Hwords.
  rewrite Forall_forall in Hwords. destruct (Hwords _ Hw) as [_ Hns].
  rewrite Forall_forall in Hns. rewrite (Hns _ Hcw) in Hc. discriminate.
Qed.

(** X4: cleaning never makes the text longer. *)
Theorem clean_text_length (text : str) :
  length (_clean_text text) <= length text.
Proof.
  unfold _clean_text.
  eapply Nat.le_trans; [apply strip_length|].
  eapply Nat.le_trans; [apply sub_tags_from_length|].
  rewrite !replace_length. apply join_split_ws_length.
Qed.


Section PlainTextFacts.

Lemma replace_id (old new : char) (s : str) :
  ~ In old s -> replace old new s = s.
Proof.
  induction s as [|c rest IH]; [reflexivity|]. intros H.
  cbn [replace map]. destruct (N.eqb_spec c old) as [-> | _].
  - exfalso. apply H. left. reflexivity.
  - f_equal. apply IH. intros Hin. apply H. right. exact Hin.
Qed.

Lemma sub_tags_id (s : str) : ~ In (chr "<") s -> sub_tags s = s.
Proof.
  unfold sub_tags. induction s as [|c rest IH]; [reflexivity|]. intros H.
  cbn [sub_tags_from].
  assert (E : match_tag (c :: rest) = None).
  { unfold match_tag. destruct (N.eqb_spec c (chr "<")) as [-> | _];
      [|reflexivity]. exfalso. apply H. left. reflexivity. }
  rewrite E. f_equal. apply IH. intros Hin. apply H. right. exact Hin.
Qed.

Lemma split_ws_In (s word : str) (c : char) :
  In word (split_ws s) -> In c word -> In c s.
Proof.
  revert word; induction s as [|a rest IH]; intros word; [intros []|].
  cbn [split_ws]. destruct (isspace a).
  - intros Hw Hc. right. exact (IH _ Hw Hc).
  - destruct rest as [|d rest'].
    + intros [<- | []] Hc. exact Hc.
    + destruct (isspace d).
      * intros [<- | Hw] Hc; [destruct Hc as [<- | []]; left; reflexivity|].
        right. exact (IH _ Hw Hc).
      * destruct (split_ws (d :: rest')) as [|w ws].
        -- intros [<- | []] [<- | []]. left. reflexivity.
        -- intros [<- | Hw] Hc.
           ++ destruct Hc as [<- | Hc]; [left; reflexivity|].
              right. exact (IH w (or_introl eq_refl) Hc).
           ++ right. exact (IH word (or_intror Hw) Hc).
Qed.

Lemma rstrip_nonspace (w : str) :
  Forall (fun c => isspace c = false) w -> rstrip w = w.
Proof.
  induction 1 as [|c w Hc _ IH]; [reflexivity|].
  rewrite (rstrip_cons _ _ Hc), IH. reflexivity.
Qed.

(** Words joined by a separator: stripping changes nothing. *)
Lemma rstrip_join (sep : str) (words : list str) :
  Forall (fun word => word <> [] /\ Forall (fun c => isspace c = false) word)
         words ->
  words <> [] ->
  rstrip (join sep words) = join sep words /\ join sep words <> [].
Proof.
  induction 1 as [|w ws [Hne Hw] Hws IH]; [contradiction|]. intros _.
  destruct ws as [|w2 ws].
  - simpl. rewrite (rstrip_nonspace _ Hw). auto.
  - destruct IH as [IH1 IH2]; [discriminate|].
    change (join sep (w :: w2 :: ws)) with (w ++ sep ++ join sep (w2 :: ws)).
    assert (Hs : rstrip (sep ++ join sep (w2 :: ws))
                 = sep ++ join sep (w2 :: ws))
      by (rewrite rstrip_app, IH1; [reflexivity | rewrite IH1; exact IH2]).
    assert (Hn : sep ++ join sep (w2 :: ws) <> [])
      by (intros E; apply app_eq_nil in E; destruct E as [_ E]; auto).
    split.
    + rewrite rstrip_app, Hs; [reflexivity | rewrite Hs; exact Hn].
    + destruct w; [contradiction | discriminate].
Qed.

Lemma strip_join (sep : str) (words : list str) :
  Forall (fun word => word <> [] /\ Forall (fun c => isspace c = false) word)
         words ->
  strip (join sep words) = join sep words.
Proof.
  intros Hws. destruct words as [|w ws]; [reflexivity|].
  destruct (rstrip_join sep (w :: ws) Hws) as [Hr _]; [discriminate|].
  unfold strip.
  assert (El : lstrip (join sep (w :: ws)) = join sep (w :: ws)).
  { inversion Hws as [|? ? [Hne Hw] _]; subst.
    destruct w as [|a w]; [contradiction|]. inversion Hw; subst.
    destruct ws; simpl; rewrite H1; reflexivity. }
  rewrite El. exact Hr.
Qed.

(** The words of a text joined by single spaces hold the plain space
    and characters of the text that are not whitespace. *)
Lemma joined_words_In (s : str) (c : char) :
  In c (join (py " ") (split_ws s)) ->
  c = chr " " \/ (In c s /\ isspace c = false).
Proof.
  intros H. apply join_In in H.
  destruct H as [[<- | []] | (word & Hw & Hc)]; [left; reflexivity|].
  right. split; [exact (split_ws_In _ _ _ Hw Hc)|].
  pose proof (split_ws_words s) as Hwords. rewrite Forall_forall in Hwords.
  destruct (Hwords _ Hw) as [_ Hns]. rewrite Forall_forall in Hns. auto.
Qed.

Lemma clean_text_plain (text : str) :
  ~ In (chr "<") text ->
  _clean_text text = join (py " ") (split_ws text).
Proof.
  intros Hlt. unfold _clean_text.
  assert (Hno : forall c, isspace c = true -> c <> chr " " ->
                          ~ In c (join (py " ") (split_ws text))).
  { intros c Hc Hsp Hin. apply joined_words_In in Hin.
    destruct Hin as [E | [_ E]]; congruence. }
  rewrite (replace_id 10%N) by (apply Hno; [reflexivity | discriminate]).
  rewrite (replace_id 13%N) by (apply Hno; [reflexivity | discriminate]).
  rewrite (replace_id 9%N) by (apply Hno; [reflexivity | discriminate]).
  rewrite sub_tags_id.
  - apply strip_join, split_ws_words.
  - intros Hin. apply joined_words_In in Hin.
    destruct Hin as [E | [Hin _]]; [discriminate | contradiction].
Qed.

End PlainTextFacts.

(** X5: text that holds no [<] is cleaned to its words joined by single
    spaces, a word being a maximal run of characters that are not
    whitespace. *)
Theorem clean_text_without_tags (text : str) :
  ~ In (chr "<") text ->
  _clean_text text = join (py " ") (split_ws text)
  /\ Forall (fun word =>
               word <> [] /\ Forall (fun c => isspace c = false) word)
            (split_ws text).
Proof.
  intros H. split; [apply clean_text_plain, H | apply split_ws_words].
Qed.

Lemma clean_text_without_tags_witness :
  ~ In (chr "<") (py "  to be,   or not  ")
  /\ _clean_text (py "  to be,   or not  ") = py "to be, or not".
Proof.
  assert (H : ~ In (chr "<") (py "  to be,   or not  ")).
  { intros Hin. vm_compute in Hin.
    repeat (destruct Hin as [Hin | Hin]; [discriminate|]). exact Hin. }
  split; [exact H|].
  rewrite (proj1 (clean_text_without_tags _ H)). reflexivity.
Defined.

(* ================================================================== *)
(** ** More about the chunker *)
(* ================================================================== *)

Section SpellFacts.
Variable self : TTSService.

Lemma open_run_strip (cur : str) :
  open_run cur -> cur <> [] -> strip cur ++ py " " = cur.
Proof.
  intros [-> | (a & w & -> & Ha)] Hne; [contradiction|].
  rewrite (strip_sentence_period _ _ Ha), <- app_assoc. reflexivity.
Qed.

Lemma concat_map_snoc (tail : str) (l : list str) (x : str) :
  concat (map (fun c => c ++ tail) (l ++ [x]))
  = concat (map (fun c => c ++ tail) l) ++ x ++ tail.
Proof.
  rewrite map_app, concat_app. simpl. rewrite app_nil_r. reflexivity.
Qed.

(** Closing the accumulator keeps the text spelled so far. *)
Lemma flush_spell (st : chunk_loop) :
  open_run (current_chunk st) ->
  concat (map (fun c => c ++ py " ") (flush st))
  = concat (map (fun c => c ++ py " ") (chunks st)) ++ current_chunk st.
Proof.
  intros Hopen. unfold flush.
  destruct (current_chunk st) as [|a cur] eqn:E; simpl is_empty; cbv iota.
  - rewrite app_nil_r. reflexivity.
  - rewrite concat_map_snoc, (open_run_strip _ Hopen); [reflexivity|].
    discriminate.
Qed.

Lemma spell_inv_step (st : chunk_loop) (taken : list str) (sentence : str) :
  spell_inv st taken ->
  spell_inv (chunk_step self st sentence) (taken ++ nonblank [sentence]).
Proof.
  intros (Hspell & Hopen & Hcount). unfold chunk_step, nonblank.
  cbn [map filter].
  destruct (strip sentence) as [|a w] eqn:Es; simpl is_empty; cbv iota.
  - cbn [negb]. rewrite app_nil_r. repeat split; assumption.
  - cbn [negb]. assert (Ha : isspace a = false) by exact (strip_head _ _ _ Es).
    destruct (Nat.leb_spec
                (length (current_chunk st ++ (a :: w) ++ py ". "))
                (max_chars self)) as [_|_];
      unfold spell_inv; cbn [chunks current_chunk].
    + split; [|split].
      * rewrite concat_map_snoc, <- Hspell, <- !app_assoc. reflexivity.
      * right. destruct Hopen as [-> | (b & v & -> & Hb)].
        -- exists a, w. auto.
        -- exists b, (v ++ py ". " ++ a :: w). split; [|exact Hb].
           simpl. rewrite <- !app_assoc. reflexivity.
      * rewrite flush_length in *. cbn [chunks current_chunk] in *.
        rewrite length_app. simpl length.
        destruct (current_chunk st); simpl in *; lia.
    + split; [|split].
      * rewrite concat_map_snoc, <- Hspell, (flush_spell _ Hopen).
        reflexivity.
      * right. exists a, w. auto.
      * rewrite flush_length in *. cbn [chunks current_chunk] in *.
        rewrite length_app. simpl length. rewrite flush_length.
        cbn [app is_empty]. lia.
Qed.

Lemma spell_inv_fold (sentences : list str) :
  forall st taken,
    spell_inv st taken ->
    spell_inv (fold_left (chunk_step self) sentences st)
              (taken ++ nonblank sentences).
Proof.
  induction sentences as [|x l IH]; intros st taken Hinv.
  - unfold nonblank. simpl. rewrite app_nil_r. exact Hinv.
  - simpl fold_left.
    replace (taken ++ nonblank (x :: l))
      with ((taken ++ nonblank [x]) ++ nonblank l).
    + apply IH, spell_inv_step, Hinv.
    + rewrite <- app_assoc. f_equal. unfold nonblank. simpl.
      destruct (negb (is_empty (strip x))); reflexivity.
Qed.

Lemma chunk_text_spell (text : str) :
  max_chars self < length text ->
  spell_inv {| chunks := _chunk_text self text; current_chunk := [] |}
            (nonblank_sentences text).
Proof.
  intros Hgt. unfold _chunk_text.
  destruct (Nat.leb_spec (length text) (max_chars self)); [lia|].
  destruct (spell_inv_fold (sentences_of text)
              {| chunks := []; current_chunk := [] |} [])
    as (Hspell & Hopen & Hcount).
  { repeat split; [left; reflexivity | simpl; lia]. }
  simpl app in *. fold (nonblank_sentences text) in *.
  split; [|split].
  - cbn [chunks current_chunk]. rewrite app_nil_r, <- Hspell.
    apply flush_spell, Hopen.
  - left. reflexivity.
  - rewrite flush_length. cbn [chunks current_chunk is_empty].
    rewrite Nat.add_0_r. exact Hcount.
Qed.

Lemma chunk_text_no_sentence (text : str) :
  max_chars self < length text ->
  nonblank_sentences text = [] ->
  _chunk_text self text = [].
Proof.
  intros Hgt E. destruct (chunk_text_spell text Hgt) as (_ & _ & Hc).
  rewrite flush_length, E in Hc. cbn [chunks current_chunk is_empty] in Hc.
  simpl in Hc. destruct (_chunk_text self text); [reflexivity|].
  simpl in Hc. lia.
Qed.

End SpellFacts.

(** X6: beyond the limit nothing is dropped and nothing is reordered:
    the chunks, each followed by a space, spell out the sentences of the
    text that are not blank, stripped and each followed by a period and
    a space. *)
Theorem chunks_spell_sentences (self : TTSService) (text : str) :
  max_chars self < length text ->
  concat (map (fun c => c ++ py " ") (_chunk_text self text))
  = concat (map (fun s => s ++ py ". ") (nonblank_sentences text)).
Proof.
  intros Hgt. destruct (chunk_text_spell self text Hgt) as (H & _ & _).
  cbn [chunks current_chunk] in H. rewrite app_nil_r in H. exact H.
Qed.

Lemma chunks_spell_sentences_witness :
  max_chars TTSService_init < length short_sentences
  /\ concat (map (fun c => c ++ py " ")
                 (_chunk_text TTSService_init short_sentences))
     = concat (map (fun s => s ++ py ". ")
                   (nonblank_sentences short_sentences)).
Proof.
  assert (H : max_chars TTSService_init < length short_sentences)
    by (apply Nat.ltb_lt; vm_compute; reflexivity).
  split; [exact H | apply (chunks_spell_sentences _ _ H)].
Defined.

(** X7: beyond the limit there are at most as many chunks as sentences
    that are not blank, and there is no chunk at all exactly when there
    is no such sentence. *)
Theorem chunk_count_at_most_sentences (self : TTSService) (text : str) :
  max_chars self < length text ->
  length (_chunk_text self text) <= length (nonblank_sentences text)
  /\ (_chunk_text self text = [] <-> nonblank_sentences text = []).
Proof.
  intros Hgt. destruct (chunk_text_spell self text Hgt) as (H & _ & Hc).
  cbn [chunks current_chunk] in H. rewrite app_nil_r in H.
  rewrite flush_length in Hc. cbn [chunks current_chunk is_empty] in Hc.
  split; [lia|]. split; intros E.
  - rewrite E in H. simpl in H.
    destruct (nonblank_sentences text) as [|s l]; [reflexivity|].
    simpl in H. destruct s; discriminate.
  - rewrite E in Hc. simpl in Hc.
    destruct (_chunk_text self text); [reflexivity | simpl in Hc; lia].
Qed.

Lemma chunk_count_at_most_sentences_witness :
  max_chars TTSService_init < length short_sentences
  /\ length (_chunk_text TTSService_init short_sentences)
     <= length (nonblank_sentences short_sentences).
Proof.
  assert (H : max_chars TTSService_init < length short_sentences)
    by (apply Nat.ltb_lt; vm_compute; reflexivity).
  split; [exact H|].
  apply (proj1 (chunk_count_at_most_sentences _ _ H)).
Defined.

(* ================================================================== *)
(** ** More about [text_to_speech] and [generate_audio] *)
(* ================================================================== *)

Section RunFacts.
Context {client : TextToSpeechClient}.
Variables (self : TTSService) (text voice_name language_code : str).
Variables (speaking_rate pitch : pyfloat) (is_ssml : bool).

#[local] Abbreviation build :=
  (build_request voice_name language_code speaking_rate pitch is_ssml).
#[local] Abbreviation process :=
  (process_chunks voice_name language_code speaking_rate pitch is_ssml).
#[local] Abbreviation chunks := (_chunk_text self (_clean_text text)).
#[local] Abbreviation run :=
  (text_to_speech self text voice_name language_code speaking_rate pitch
                  is_ssml).

(** What a run that returns has logged and what it returns. *)
Lemma returned_run_segments (w w' : world) (audio : bytes) :
  run w = (w', inr audio) ->
  exists segments : list bytes,
    length segments = length chunks
    /\ call_log w' = call_log w ++ combine (map build chunks) (map inr segments)
    /\ answers_from (remote w) (map build chunks) = map inr segments
    /\ audio = concat segments.
Proof.
  intros Hrun.
  destruct (is_empty (strip text)) eqn:Hblank.
  - rewrite (blank_text_rejected _ _ _ _ _ _ _ _ Hblank) in Hrun.
    discriminate.
  - destruct (text_to_speech_outcome _ _ _ _ _ _ _ _ _ _ Hblank Hrun)
      as (new & sr & (Hlog & Hreq & Hans & Hres) & E).
    destruct sr as [e | segments]; [discriminate|].
    injection E as ->.
    destruct Hres as (answers & E & Hsnd & Hlen). simpl in E. subst answers.
    rewrite Hlen, firstn_all in Hreq.
    exists segments. split; [|split; [|split]].
    + rewrite <- Hlen, <- (length_map snd), Hsnd, length_map. reflexivity.
    + rewrite Hlog, <- Hreq, <- Hsnd. f_equal.
      clear. induction new as [|[a b] l IH]; simpl; [|rewrite <- IH];
        reflexivity.
    + rewrite <- Hreq, <- Hans. exact Hsnd.
    + reflexivity.
Qed.

Lemma contents_of_combine (cs : list str)
      (answers : list (client_error + bytes)) :
  length cs = length answers ->
  map (fun en => content (input (fst en))) (combine (map build cs) answers)
  = cs.
Proof.
  revert answers; induction cs as [|c cs IH]; intros [|a answers] Hl;
    simpl in Hl; try discriminate; [reflexivity|].
  cbn [map combine fst]. f_equal.
  - apply (synthesis_input_markup voice_name language_code speaking_rate
             pitch is_ssml c).
  - apply IH. injection Hl as Hl. exact Hl.
Qed.

(** The calls of a run that returns carry the chunks, one each, in
    chunk order, unchanged. *)
Lemma returned_run_contents
      (w w' : world) (audio : bytes)
      (new : list (SynthesisRequest * (client_error + bytes))) :
  run w = (w', inr audio) ->
  call_log w' = call_log w ++ new ->
  map (fun en => content (input (fst en))) new = chunks.
Proof.
  intros Hrun Hlog.
  destruct (returned_run_segments _ _ _ Hrun) as (segments & Hlen & Hlog' & _).
  rewrite Hlog in Hlog'. apply app_inv_head in Hlog'. subst new.
  apply contents_of_combine. rewrite length_map. symmetry. exact Hlen.
Qed.


End RunFacts.

Section RunProperties.
Context {client : TextToSpeechClient}.
Variables (self : TTSService) (text voice_name lang : str).
Variables (rate semitones : pyfloat) (is_ssml : bool).

#[local] Abbreviation chunks := (_chunk_text self (_clean_text text)).
#[local] Abbreviation run :=
  (text_to_speech self text voice_name lang rate semitones is_ssml).

(** X8: text that is empty or holds nothing but whitespace is refused
    with [ValueError], message [Text cannot be empty], before anything
    else happens: the engine and its call log are left as they were. *)
Theorem blank_text_raises_value_error (w : world) :
  Forall (fun c => isspace c = true) text ->
  run w = (w, inl (ValueError "Text cannot be empty")).
Proof. apply whitespace_only_text_rejected. Qed.


(** X10: every call of a run carries the voice name and language code
    it was given, its speaking rate and pitch, and the fixed output
    settings: MP3, the headphone profile, 24,000 Hz. *)
Theorem calls_carry_request_settings
        (w w' : world) (r : exn + bytes)
        (new : list (SynthesisRequest * (client_error + bytes))) :
  run w = (w', r) ->
  call_log w' = call_log w ++ new ->
  Forall (fun en =>
            voice (fst en)
            = {| language_code := lang; name := voice_name |}
            /\ audio_config (fst en)
               = {| audio_encoding := MP3;
                    speaking_rate := rate;
                    pitch := semitones;
                    effects_profile_id := [py "headphone-class-device"];
                    sample_rate_hertz := 24000%N |})
         new.
Proof.
  intros Hrun Hlog.
  destruct (text_to_speech_log _ _ _ _ _ _ _ _ _ _ Hrun)
    as (new' & Hlog' & Hreq).
  rewrite Hlog in Hlog'. apply app_inv_head in Hlog'. subst new'.
  apply Forall_forall. intros en Hen.
  apply (in_map fst) in Hen. rewrite Hreq in Hen.
  apply in_map_iff in Hen. destruct Hen as (chunk & <- & _).
  split; reflexivity.
Qed.

(** X11: when the cleaned text is beyond the limit and none of its
    sentences is left after stripping (it is made of terminators and
    spaces), there is no chunk: the run makes no call, raises nothing
    and returns empty audio. *)
Theorem no_sentence_gives_empty_audio (w : world) :
  is_empty (strip text) = false ->
  max_chars self < length (_clean_text text) ->
  nonblank_sentences (_clean_text text) = [] ->
  run w = (w, inr []).
Proof.
  intros Hne Hgt Hnone.
  apply (chunk_text_no_sentence self _ Hgt) in Hnone.
  unfold text_to_speech, try_reraise, bind. rewrite Hne, Hnone.
  reflexivity.
Qed.

End RunProperties.


Lemma blank_text_raises_value_error_witness :
  let c := mock_client [] in
  Forall (fun ch => isspace ch = true) [9; 32; 160; 8232]%N
  /\ text_to_speech (client := c) TTSService_init [9; 32; 160; 8232]%N
                    voice_D en_US one zero false (fresh_world c 0)
     = (fresh_world c 0, inl (ValueError "Text cannot be empty")).
Proof.
  intros c.
  assert (H : Forall (fun ch => isspace ch = true) [9; 32; 160; 8232]%N)
    by (repeat constructor).
  split; [exact H|].
  exact (blank_text_raises_value_error (client := c) TTSService_init
           [9; 32; 160; 8232]%N voice_D en_US one zero false
           (fresh_world c 0) H).
Defined.


Lemma calls_carry_request_settings_witness :
  let c := mock_client [] in
  let out :=
    text_to_speech (client := c) TTSService_init (py "Hello world.")
                   voice_D en_US one zero false (fresh_world c 0) in
  Forall (fun en =>
            voice (fst en) = {| language_code := en_US; name := voice_D |}
            /\ audio_config (fst en)
               = {| audio_encoding := MP3;
                    speaking_rate := one;
                    pitch := zero;
                    effects_profile_id := [py "headphone-class-device"];
                    sample_rate_hertz := 24000%N |})
         (call_log (fst out)).
Proof.
  intros c out.
  apply (calls_carry_request_settings (client := c) TTSService_init
           (py "Hello world.") voice_D en_US one zero false
           (fresh_world c 0) (fst out) (snd out) (call_log (fst out))
           (surjective_pairing out)).
  reflexivity.
Defined.

Lemma no_sentence_gives_empty_audio_witness :
  let c := mock_client [] in
  is_empty (strip periods_only) = false
  /\ max_chars TTSService_init < length (_clean_text periods_only)
  /\ nonblank_sentences (_clean_text periods_only) = []
  /\ text_to_speech (client := c) TTSService_init periods_only
                    voice_D en_US one zero false (fresh_world c 0)
     = (fresh_world c 0, inr []).
Proof.
  intros c.
  assert (H1 : is_empty (strip periods_only) = false)
    by (vm_compute; reflexivity).
  assert (H2 : max_chars TTSService_init < length (_clean_text periods_only))
    by (apply Nat.ltb_lt; vm_compute; reflexivity).
  assert (H3 : nonblank_sentences (_clean_text periods_only) = [])
    by (vm_compute; reflexivity).
  split; [exact H1|]. split; [exact H2|]. split; [exact H3|].
  exact (no_sentence_gives_empty_audio (client := c) TTSService_init
           periods_only voice_D en_US one zero false (fresh_world c 0)
           H1 H2 H3).
Defined.

Section HandlerProperties.
Context {client : TextToSpeechClient}.
Variables (tts : TTSService) (b : Api.body).

(** What the handler does once the model is built. *)
Lemma generate_audio_parsed (request : Api.TextToSpeechRequest)
      (w w' : world) (resp : Api.response) :
  Api.parse b = Some request ->
  Api.generate_audio tts b w = (w', resp) ->
  exists r,
    text_to_speech tts (Api.text request) (Api.voice_name request)
                   (Api.language_code request) (Api.speaking_rate request)
                   (Api.pitch request) false w = (w', r)
    /\ resp = match r with
              | inr audio_data => Api.StreamingResponse audio_data
              | inl (ValueError msg) => Api.HTTPException 400 (ValueError msg)
              | inl e => Api.HTTPException 500 e
              end.
Proof.
  intros Hparse. unfold Api.generate_audio. rewrite Hparse.
  destruct (text_to_speech _ _ _ _ _ _ _ w) as [w1 r]. intros E.
  exists r. destruct r as [[msg | e] | audio]; injection E as <- <-; auto.
Qed.

(** X12: the handler never asks for markup, and it does not enforce
    [validate_voice]: every call it causes carries plain text, under
    the voice name and language code of the request (the defaults when
    the body has none), whether or not the voice is a known one. *)
Theorem api_calls_are_plain_text
        (w w' : world) (resp : Api.response)
        (new : list (SynthesisRequest * (client_error + bytes))) :
  Api.generate_audio tts b w = (w', resp) ->
  call_log w' = call_log w ++ new ->
  Forall (fun en =>
            is_markup (input (fst en)) = false
            /\ name (voice (fst en))
               = Api.default (py "en-US-Neural2-D") (Api.body_voice_name b)
            /\ language_code (voice (fst en))
               = Api.default (py "en-US") (Api.body_language_code b))
         new.
Proof.
  intros Hrun Hlog.
  destruct (Api.parse b) as [request|] eqn:Hparse.
  - destruct (generate_audio_parsed _ _ _ _ Hparse Hrun) as (r & Htts & _).
    destruct (text_to_speech_log _ _ _ _ _ _ _ _ _ _ Htts)
      as (new' & Hlog' & Hreq).
    rewrite Hlog in Hlog'. apply app_inv_head in Hlog'. subst new'.
    apply Forall_forall. intros en Hen.
    apply (in_map fst) in Hen. rewrite Hreq in Hen.
    apply in_map_iff in Hen. destruct Hen as (chunk & <- & _).
    unfold Api.parse in Hparse.
    destruct (Api.body_text b); [|discriminate].
    destruct (_ && _) in Hparse; [|discriminate].
    injection Hparse as <-. repeat split.
  - unfold Api.generate_audio in Hrun. rewrite Hparse in Hrun.
    injection Hrun as <- _.
    rewrite <- (app_nil_r (call_log w)) in Hlog at 1.
    apply app_inv_head in Hlog. subst new. constructor.
Qed.

(** X13: a text of whitespace only gets through the request model, which
    only counts its characters, and is then refused by the handler:
    the answer is 400 with [Text cannot be empty], and no call is made. *)
Theorem whitespace_text_answered_400
        (request : Api.TextToSpeechRequest) (w : world) :
  Api.parse b = Some request ->
  Forall (fun c => isspace c = true) (Api.text request) ->
  Api.generate_audio tts b w
  = (w, Api.HTTPException 400 (ValueError "Text cannot be empty")).
Proof.
  intros Hparse Hws. unfold Api.generate_audio. rewrite Hparse.
  rewrite (whitespace_only_text_rejected _ _ _ _ _ _ _ _ Hws). reflexivity.
Qed.

End HandlerProperties.

Lemma api_calls_are_plain_text_witness :
  let c := mock_client [] in
  let b := {| Api.body_text := Some ssml_document;
              Api.body_voice_name := Some (py "xx-Unknown-Voice");
              Api.body_language_code := None;
              Api.body_speaking_rate := None;
              Api.body_pitch := None |} in
  let out := Api.generate_audio (client := c) TTSService_init b
                                (fresh_world c 0) in
  validate_voice (py "xx-Unknown-Voice") (py "en-US") = false
  /\ Forall (fun en =>
               is_markup (input (fst en)) = false
               /\ name (voice (fst en)) = py "xx-Unknown-Voice"
               /\ language_code (voice (fst en)) = py "en-US")
            (call_log (fst out)).
Proof.
  intros c b out. split; [reflexivity|].
  apply (api_calls_are_plain_text (client := c) TTSService_init b
           (fresh_world c 0) (fst out) (snd out) (call_log (fst out))
           (surjective_pairing out)).
  reflexivity.
Defined.

Lemma whitespace_text_answered_400_witness :
  let c := mock_client [] in
  exists request,
    Api.parse (text_only_body (py "   ")) = Some request
    /\ Forall (fun ch => isspace ch = true) (Api.text request)
    /\ Api.generate_audio (client := c) TTSService_init
                          (text_only_body (py "   ")) (fresh_world c 0)
       = (fresh_world c 0,
          Api.HTTPException 400 (ValueError "Text cannot be empty")).
Proof.
  intros c.
  assert (Hws : Forall (fun ch => isspace ch = true) (py "   "))
    by (repeat constructor).
  eexists. split; [reflexivity|]. split; [exact Hws|].
  exact (whitespace_text_answered_400 (client := c) TTSService_init
           (text_only_body (py "   ")) _ (fresh_world c 0) eq_refl Hws).
Defined.

(* ================================================================== *)
(** ** Text validation and the voice catalog *)
(* ================================================================== *)

Section ValidateTextFacts.
Variable rounded_estimate : nat -> pyfloat.

#[local] Abbreviation validate_text :=
  (Endpoints.validate_text rounded_estimate).

(** X14: the validator answers [valid] exactly for a string that is not
    blank and has at most 50,000 characters; the answer then carries
    the length of the text and a chunk estimate of one more than the
    number of full 5,000s, between 1 and 11. An empty request is
    answered like the empty string: [Text cannot be empty]. *)
Theorem validate_text_valid_iff (request : Endpoints.dict) :
  ((exists n e k, validate_text request = Endpoints.Ok (Endpoints.Valid n e k))
   <-> exists t,
       Endpoints.dict_get request "text" (Endpoints.JString [])
       = Endpoints.JString t
       /\ is_empty (strip t) = false /\ length t <= 50000)
  /\ (forall t n e k,
         Endpoints.dict_get request "text" (Endpoints.JString [])
         = Endpoints.JString t ->
         validate_text request = Endpoints.Ok (Endpoints.Valid n e k) ->
         n = length t /\ k = n / 5000 + 1 /\ 1 <= k /\ k <= 11)
  /\ (request = [] ->
      validate_text request
      = Endpoints.Ok (Endpoints.Invalid "Text cannot be empty")).
Proof.
  unfold Endpoints.validate_text.
  split; [|split].
  - split.
    + intros (n & e & k & H).
      destruct (Endpoints.dict_get request "text" (Endpoints.JString []))
        as [t|]; [|discriminate].
      exists t. destruct (is_empty (strip t)); [discriminate|].
      destruct (Nat.ltb_spec 50000 (length t)); [discriminate|]. auto.
    + intros (t & -> & Hne & Hlen). rewrite Hne.
      destruct (Nat.ltb_spec 50000 (length t)); [lia|]. eauto.
  - intros t n e k -> H.
    destruct (is_empty (strip t)); [discriminate|].
    destruct (Nat.ltb_spec 50000 (length t)) as [|Hlen]; [discriminate|].
    injection H as <- _ <-. split; [reflexivity|]. split; [reflexivity|].
    assert (Hdiv : length t / 5000 <= 50000 / 5000)
      by (apply Nat.Div0.div_le_mono; exact Hlen).
    replace (50000 / 5000) with 10 in Hdiv by (vm_compute; reflexivity).
    split; [rewrite Nat.add_1_r; apply Nat.lt_0_succ|].
    rewrite Nat.add_1_r. apply le_n_S. exact Hdiv.
  - intros ->. reflexivity.
Qed.

End ValidateTextFacts.

Lemma validate_text_valid_iff_witness :
  Endpoints.validate_text (fun _ => zero)
                          [("text"%string, Endpoints.JString (py "Hello world."))]
  = Endpoints.Ok (Endpoints.Valid 12 zero 1)
  /\ 12 = length (py "Hello world.") /\ 1 = 12 / 5000 + 1 /\ 1 <= 1 /\ 1 <= 11.
Proof.
  split; [reflexivity|].
  exact (proj1 (proj2 (validate_text_valid_iff (fun _ => zero)
                         [("text"%string,
                           Endpoints.JString (py "Hello world."))]))
               (py "Hello world.") 12 zero 1 eq_refl eq_refl).
Defined.

Section ValidatedText.
Context {client : TextToSpeechClient}.
Variable rounded_estimate : nat -> pyfloat.

Lemma parse_text_only (t : str) :
  Api.parse (text_only_body t)
  = if (1 <=? length t) && (length t <=? 50000)
    then Some {| Api.text := t;
                 Api.voice_name := py "en-US-Neural2-D";
                 Api.language_code := py "en-US";
                 Api.speaking_rate := Finite (1 # 1);
                 Api.pitch := Finite (0 # 1) |}
    else None.
Proof.
  unfold Api.parse, text_only_body. cbn [Api.body_text Api.body_speaking_rate
    Api.body_pitch Api.body_voice_name Api.body_language_code Api.default].
  change (Api.rate_ok (Finite (1 # 1))) with true.
  change (Api.pitch_ok (Finite (0 # 1))) with true.
  rewrite !andb_true_r. reflexivity.
Qed.

(** X15: a text the validator does not call valid never reaches the
    engine through the handler: a request carrying only that text is
    refused by [generate_audio], with a validation error when the text
    is empty or has more than 50,000 characters and with 400 when it is
    blank, and no call is made. *)
Theorem invalid_text_is_refused
        (tts : TTSService) (request : Endpoints.dict) (t : str) (w : world) :
  Endpoints.dict_get request "text" (Endpoints.JString [])
  = Endpoints.JString t ->
  (forall n e k,
      Endpoints.validate_text rounded_estimate request
      <> Endpoints.Ok (Endpoints.Valid n e k)) ->
  exists resp,
    Api.generate_audio tts (text_only_body t) w = (w, resp)
    /\ refuses_input resp = true.
Proof.
  intros Hget Hinvalid. unfold Endpoints.validate_text in Hinvalid.
  rewrite Hget in Hinvalid.
  unfold Api.generate_audio. rewrite parse_text_only.
  destruct (is_empty (strip t)) eqn:Hblank.
  - destruct ((1 <=? length t) && (length t <=? 50000)).
    + cbn [Api.text Api.voice_name Api.language_code Api.speaking_rate
           Api.pitch].
      rewrite (blank_text_rejected _ _ _ _ _ _ _ _ Hblank).
      eexists. split; reflexivity.
    + eexists. split; reflexivity.
  - destruct (Nat.ltb_spec 50000 (length t)) as [Hlong | Hfit].
    + apply Nat.leb_gt in Hlong. rewrite Hlong, andb_false_r.
      eexists. split; reflexivity.
    + exfalso. eapply Hinvalid. reflexivity.
Qed.

End ValidatedText.

Lemma invalid_text_is_refused_witness :
  let c := mock_client [] in
  Endpoints.validate_text (fun _ => zero)
                          [("text"%string, Endpoints.JString (py "   "))]
  = Endpoints.Ok (Endpoints.Invalid "Text cannot be empty")
  /\ exists resp,
      Api.generate_audio (client := c) TTSService_init
                         (text_only_body (py "   ")) (fresh_world c 0)
      = (fresh_world c 0, resp)
      /\ refuses_input resp = true.
Proof.
  intros c. split; [reflexivity|].
  apply (invalid_text_is_refused (client := c) (fun _ => zero)
           TTSService_init
           [("text"%string, Endpoints.JString (py "   "))]
           (py "   ") (fresh_world c 0) eq_refl).
  intros n e k H. discriminate.
Defined.

Section VoiceFacts.
Context {E : Type}.
Variable list_voices : str -> E + list Voice.

Lemma In_firstn_In {A} (n : nat) (l : list A) (x : A) :
  In x (firstn n l) -> In x l.
Proof.
  intros H. rewrite <- (firstn_skipn n l). apply in_or_app. left. exact H.
Qed.

Lemma neural2_voices_filter (language_code : str) (voices : list Voice) :
  neural2_voices language_code voices
  = map (voice_info language_code) (filter is_neural2 voices).
Proof.
  induction voices as [|v rest IH]; [reflexivity|].
  cbn [neural2_voices filter]. unfold is_neural2 at 1.
  destruct (contains (py "Neural2") (voice_name_of v)); cbn [map];
    rewrite IH; reflexivity.
Qed.

(** X16: when the directory answers, the catalog holds at most 15
    voices: the first 15 voices of the answer whose name holds
    [Neural2], in the order of the answer, each with its name, its
    first language code, the name of its gender and its sample rate.
    Every voice listed is such a voice of the answer, and all of them
    are listed when there are at most 15. When the directory fails,
    its error is what the catalog raises. *)
Theorem catalog_lists_first_neural2_voices
        (language_code : str) :
  match list_voices language_code with
  | inl e => get_available_voices list_voices language_code = inl e
  | inr voices =>
      exists infos,
        get_available_voices list_voices language_code = inr infos
        /\ infos = map (voice_info language_code)
                       (firstn 15 (filter is_neural2 voices))
        /\ length infos <= 15
        /\ Forall (fun info =>
                     exists v, In v voices /\ is_neural2 v = true
                               /\ info = voice_info language_code v)
                  infos
        /\ (length (filter is_neural2 voices) <= 15 ->
            forall v, In v voices -> is_neural2 v = true ->
                      In (voice_info language_code v) infos)
  end.
Proof.
  unfold get_available_voices.
  destruct (list_voices language_code) as [e | voices]; [reflexivity|].
  eexists. split; [reflexivity|].
  rewrite neural2_voices_filter, <- firstn_map.
  split; [reflexivity|]. split; [|split].
  - rewrite length_firstn. lia.
  - apply Forall_forall. intros info Hin.
    rewrite firstn_map in Hin.
    apply in_map_iff in Hin. destruct Hin as (v & <- & Hv).
    apply In_firstn_In, filter_In in Hv. exists v. tauto.
  - intros Hfew v Hv Hn.
    rewrite firstn_all2 by (rewrite length_map; exact Hfew).
    apply in_map, filter_In. auto.
Qed.

(** X17: the two endpoints over the catalog. [GET /voices] answers the
    catalog, or 500 when the directory fails; [GET /health] answers the
    number of voices of the catalog for [en-US], never more than 15, or
    503 when the directory fails. *)
Theorem voice_endpoints_answers (language_code : str) :
  Endpoints.get_voices list_voices language_code
  = match list_voices language_code with
    | inl _ => Endpoints.HTTPException 500
    | inr voices =>
        Endpoints.Ok (map (voice_info language_code)
                          (firstn 15 (filter is_neural2 voices)))
    end
  /\ match list_voices (py "en-US") with
     | inl _ => Endpoints.health_check list_voices = Endpoints.HTTPException 503
     | inr voices =>
         exists n,
           Endpoints.health_check list_voices = Endpoints.Ok n
           /\ n = Nat.min 15 (length (filter is_neural2 voices))
     end.
Proof.
  unfold Endpoints.get_voices, Endpoints.health_check, get_available_voices.
  split.
  - destruct (list_voices language_code); [reflexivity|].
    rewrite neural2_voices_filter, firstn_map. reflexivity.
  - destruct (list_voices (py "en-US")) as [e | voices]; [reflexivity|].
    eexists. split; [reflexivity|].
    rewrite neural2_voices_filter, length_firstn, length_map. reflexivity.
Qed.

End VoiceFacts.

(** The sample directory: the Standard voice is left out, the voice
    without language codes gets the requested one, the missing sample
    rate becomes 24,000. *)
Lemma sample_catalog :
  get_available_voices sample_directory (py "en-GB")
  = inr [ {| info_name := py "en-US-Neural2-A";
             info_language_code := py "en-US";
             info_gender := py "MALE";
             info_natural_sample_rate := 24000%N |};
          {| info_name := py "en-GB-Neural2-C";
             info_language_code := py "en-GB";
             info_gender := py "FEMALE";
             info_natural_sample_rate := 24000%N |} ]
  /\ Endpoints.health_check sample_directory = Endpoints.Ok 2
  /\ Endpoints.health_check directory_down = Endpoints.HTTPException 503
  /\ Endpoints.get_voices directory_down (py "en-US")
     = Endpoints.HTTPException 500.
Proof. repeat split. Qed.

(** X18: [validate_voice] answers true exactly for the nine names of
    its list, whatever language code it is given; each of them is an
    [en-US] name that the catalog's Neural2 filter lets through. *)
Theorem validate_voice_known_names (voice_name language_code : str) :
  (validate_voice voice_name language_code = true
   <-> In voice_name common_voices)
  /\ (validate_voice voice_name language_code = true ->
      contains (py "Neural2") voice_name = true
      /\ startswith (py "en-US-") voice_name = true).
Proof.
  assert (Hiff : validate_voice voice_name language_code = true
                 <-> In voice_name common_voices).
  { unfold validate_voice. rewrite existsb_exists. split.
    - intros (v & Hv & E).
      destruct (list_eq_dec N.eq_dec voice_name v) as [-> | _];
        [exact Hv | discriminate].
    - intros Hin. exists voice_name. split; [exact Hin|].
      destruct (list_eq_dec N.eq_dec voice_name voice_name);
        [reflexivity | contradiction]. }
  split; [exact Hiff|]. intros H. apply Hiff in H.
  unfold common_voices in H. cbn [map In] in H.
  repeat (destruct H as [<- | H]; [split; reflexivity|]). destruct H.
Qed.

(* ================================================================== *)
(** ** Sentences as long as the limit *)
(* ================================================================== *)

Section SoloFacts.
Variable self : TTSService.

Lemma nonblank_In (sentences : list str) (s : str) :
  In s (nonblank sentences) <->
  exists sentence, In sentence sentences /\ s = strip sentence /\ s <> [].
Proof.
  unfold nonblank. rewrite filter_In, in_map_iff. split.
  - intros [(sentence & <- & Hin) Hne]. exists sentence.
    repeat split; [exact Hin|]. destruct (strip sentence); [discriminate|].
    discriminate.
  - intros (sentence & Hin & -> & Hne). split; [eauto|].
    destruct (strip sentence); [contradiction | reflexivity].
Qed.

Lemma nonblank_headed (sentences : list str) :
  Forall headed (nonblank sentences).
Proof.
  apply Forall_forall. intros s Hs. apply nonblank_In in Hs.
  destruct Hs as (sentence & _ & E & Hne).
  destruct s as [|a w]; [contradiction|]. exists a, w.
  split; [reflexivity|]. symmetry in E. exact (strip_head _ _ _ E).
Qed.

Lemma headed_strip (s : str) :
  headed s -> strip (s ++ py ". ") = s ++ py ".".
Proof. intros (a & w & -> & Ha). apply strip_sentence_period, Ha. Qed.

Lemma chunks_in_flush (st : chunk_loop) (c : str) :
  In c (chunks st) -> In c (flush st).
Proof.
  intros H. unfold flush. destruct (is_empty (current_chunk st));
    [exact H | apply in_or_app; left; exact H].
Qed.

(** A sentence that is alone in the accumulator is closed as it is. *)
Lemma solo_flush (st : chunk_loop) (taken : list str) (s : str) :
  solo_inv self st taken ->
  In s taken -> max_chars self <= length s ->
  In (s ++ py ".") (flush st).
Proof.
  intros [Hhead Hsolo] Hin Hlong.
  destruct (Hsolo s Hin Hlong) as [Hc | Hcur]; [apply chunks_in_flush, Hc|].
  rewrite Forall_forall in Hhead.
  unfold flush. rewrite Hcur, (headed_strip _ (Hhead _ Hin)).
  destruct s; simpl; apply in_or_app; right; left; reflexivity.
Qed.

Lemma solo_inv_step (st : chunk_loop) (taken : list str) (sentence : str) :
  solo_inv self st taken ->
  solo_inv self (chunk_step self st sentence) (taken ++ nonblank [sentence]).
Proof.
  intros Hinv. pose proof Hinv as [Hhead Hsolo].
  assert (Hhead' : Forall headed (taken ++ nonblank [sentence]))
    by (apply Forall_app; split; [exact Hhead | apply nonblank_headed]).
  split; [exact Hhead'|]. intros s Hin Hlong.
  unfold chunk_step. unfold nonblank in Hin. cbn [map filter] in Hin.
  destruct (strip sentence) as [|a w] eqn:Es; simpl is_empty in *;
    cbn [negb] in *; cbv iota.
  - rewrite app_nil_r in Hin. exact (Hsolo s Hin Hlong).
  - destruct (Nat.leb_spec
                (length (current_chunk st ++ (a :: w) ++ py ". "))
                (max_chars self)) as [Hfit | Hover];
      cbn [chunks current_chunk].
    + rewrite !length_app in Hfit. simpl length in Hfit.
      apply in_app_or in Hin. destruct Hin as [Hin | [<- | []]].
      * destruct (Hsolo s Hin Hlong) as [Hc | Hcur]; [left; exact Hc|].
        rewrite Hcur, length_app in Hfit. simpl length in Hfit. lia.
      * simpl length in Hlong. lia.
    + apply in_app_or in Hin. destruct Hin as [Hin | [<- | []]].
      * left. exact (solo_flush st taken s Hinv Hin Hlong).
      * right. reflexivity.
Qed.

Lemma solo_inv_fold (sentences : list str) :
  forall st taken,
    solo_inv self st taken ->
    solo_inv self (fold_left (chunk_step self) sentences st)
             (taken ++ nonblank sentences).
Proof.
  induction sentences as [|x l IH]; intros st taken Hinv.
  - unfold nonblank. simpl. rewrite app_nil_r. exact Hinv.
  - simpl fold_left.
    replace (taken ++ nonblank (x :: l))
      with ((taken ++ nonblank [x]) ++ nonblank l).
    + apply IH, solo_inv_step, Hinv.
    + rewrite <- app_assoc. f_equal. unfold nonblank. simpl.
      destruct (negb (is_empty (strip x))); reflexivity.
Qed.

(** Beyond the limit, a sentence of at least [max_chars] characters is
    a chunk by itself, whole, with its period. *)
Lemma long_sentence_is_a_chunk (text s : str) :
  max_chars self < length text ->
  In s (nonblank_sentences text) ->
  max_chars self <= length s ->
  In (s ++ py ".") (_chunk_text self text).
Proof.
  intros Hgt Hin Hlong. unfold _chunk_text.
  destruct (Nat.leb_spec (length text) (max_chars self)); [lia|].
  apply (solo_flush _ (nonblank_sentences text)); [|exact Hin | exact Hlong].
  apply (solo_inv_fold (sentences_of text)
           {| chunks := []; current_chunk := [] |} []).
  split; [constructor | intros s' []].
Qed.

(** A chunk beyond the limit is such a sentence. *)
Lemma long_chunk_is_a_sentence (text : str) :
  Forall (fun c =>
            length c <= max_chars self
            \/ exists s,
                In s (nonblank_sentences text)
                /\ c = s ++ py "." /\ max_chars self <= length s)
         (_chunk_text self text).
Proof.
  eapply Forall_impl; [|apply chunk_text_bounded].
  intros c Hc.
  destruct (le_gt_dec (length c) (max_chars self)) as [Hle | Hgt];
    [left; exact Hle|].
  destruct Hc as [Hle | (sentence & Hin & Hne & E)]; [lia|].
  right. exists (strip sentence). split; [|split; [exact E|]].
  - apply nonblank_In. exists sentence. auto.
  - rewrite E, length_app in Hgt. simpl length in Hgt. lia.
Qed.

End SoloFacts.

Lemma In_existsb_str (s : str) (l : list str) :
  existsb (str_eqb s) l = true -> In s l.
Proof.
  intros H. apply existsb_exists in H. destruct H as (x & Hx & E).
  apply str_eqb_eq in E. subst x. exact Hx.
Qed.

(** C5, as stated, fails: in [b.] followed by 10,000 letters no
    sentence is longer than the limit of 10,000, and yet the second
    chunk, the letters and the period the chunker adds, has 10,001
    characters. *)
Lemma chunk_exceeds_limit_without_long_sentence :
  ~ (forall text : str,
        Forall (fun c =>
                  length c <= max_chars TTSService_init
                  \/ exists sentence,
                      In sentence (sentences_of text)
                      /\ max_chars TTSService_init < length sentence)
               (_chunk_text TTSService_init text)).
Proof.
  intros H. specialize (H sentence_at_limit).
  assert (Ec : _chunk_text TTSService_init sentence_at_limit
               = [py "b."; repeat (chr "a") 10000 ++ py "."])
    by (apply (list_eqb_eq str_eqb str_eqb_eq); vm_compute; reflexivity).
  assert (Es : sentences_of sentence_at_limit
               = [py "b"; repeat (chr "a") 10000])
    by (apply (list_eqb_eq str_eqb str_eqb_eq); vm_compute; reflexivity).
  rewrite Ec, Es in H. inversion H as [|? ? _ H2]; subst.
  inversion H2 as [|? ? Hlong _]; subst.
  destruct Hlong as [Hle | (sentence & [<- | [<- | []]] & Hlt)].
  - apply Nat.leb_le in Hle. vm_compute in Hle. discriminate.
  - apply Nat.ltb_lt in Hlt. vm_compute in Hlt. discriminate.
  - apply Nat.ltb_lt in Hlt. vm_compute in Hlt. discriminate.
Qed.

Section LongSentence.
Context {client : TextToSpeechClient}.

(** C5, amended: every chunk is at most [max_chars] long, except a
    chunk that is one sentence of at least [max_chars] characters with
    the period the chunker adds; beyond the limit every such sentence
    is emitted so, whole and by itself; and a run that returns has
    handed each chunk, as it is, to the engine. *)
Theorem long_sentence_chunk_is_the_exception
        (self : TTSService) (text : str) :
  Forall (fun c =>
            length c <= max_chars self
            \/ exists s,
                In s (nonblank_sentences text)
                /\ c = s ++ py "." /\ max_chars self <= length s)
         (_chunk_text self text)
  /\ (max_chars self < length text ->
      forall s,
        In s (nonblank_sentences text) ->
        max_chars self <= length s ->
        In (s ++ py ".") (_chunk_text self text))
  /\ (forall raw voice_name lang rate semitones is_ssml w w' audio new,
         text = _clean_text raw ->
         text_to_speech self raw voice_name lang rate semitones is_ssml w
         = (w', inr audio) ->
         call_log w' = call_log w ++ new ->
         map (fun en => content (input (fst en))) new
         = _chunk_text self text).
Proof.
  split; [apply long_chunk_is_a_sentence|]. split.
  - intros Hgt s Hin Hlong.
    exact (long_sentence_is_a_chunk self text s Hgt Hin Hlong).
  - intros raw voice_name lang rate semitones is_ssml w w' audio new -> Hrun
           Hlog.
    exact (returned_run_contents _ _ _ _ _ _ _ _ _ _ _ Hrun Hlog).
Qed.

End LongSentence.

Lemma long_sentence_chunk_is_the_exception_witness :
  max_chars TTSService_init < length sentence_at_limit
  /\ In (repeat (chr "a") 10000) (nonblank_sentences sentence_at_limit)
  /\ max_chars TTSService_init <= length (repeat (chr "a") 10000)
  /\ In (repeat (chr "a") 10000 ++ py ".")
        (_chunk_text TTSService_init sentence_at_limit).
Proof.
  assert (H1 : max_chars TTSService_init < length sentence_at_limit)
    by (apply Nat.ltb_lt; vm_compute; reflexivity).
  assert (H2 : In (repeat (chr "a") 10000)
                  (nonblank_sentences sentence_at_limit))
    by (apply In_existsb_str; vm_compute; reflexivity).
  assert (H3 : max_chars TTSService_init <= length (repeat (chr "a") 10000))
    by (apply Nat.leb_le; vm_compute; reflexivity).
  split; [exact H1|]. split; [exact H2|]. split; [exact H3|].
  exact (proj1 (proj2 (long_sentence_chunk_is_the_exception
                         (client := mock_client [])
                         TTSService_init sentence_at_limit))
               H1 _ H2 H3).
Defined.
